(** * Query-by-example spoken term detection on QUESST 2014

  A shallow embedding of [downstream/quesst14/expert.py]: the pairwise
  dispatch of [match] over every (query, document) pair, the collection
  of the results in completion order, the score threshold taken from the
  sorted scores, and the [stdlist] tree that is written out.

  Scores are Python floats in the source.  They are modelled here by
  their exact rational values ([Qc], canonical rationals); comparison
  and negation are the exact ones.

  Three float operations of the source round in principle: [-1 * cost],
  [0.99 * len(scores)] and [score - score_min].  [Binary64] computes the
  first two in IEEE double precision: the product by [-1] is the exact
  negation of every double, and [int(0.99 * n)] is the exact
  [floor(99 n / 100)] for every list length below 2^47.  The subtraction
  rounds: [Binary64.sub] gives the double nearest to the exact
  difference, ties to even, as [SpecFloat]'s subtraction does on
  doubles, and the four-decimal rendering [f"{x:.4f}"] rounds that
  double once more. *)

From Stdlib Require Import List String Ascii Bool Arith ZArith QArith Qcanon.
From Stdlib Require Import Qabs Qpower Qround Permutation Sorted Lia.
From Stdlib Require Import DecimalString.
From Stdlib Require Import SpecFloat DecimalN DecimalPos.
Import ListNotations.

Local Open Scope string_scope.

(** ** The Python pieces the expert relies on *)

Module Py.

(** Exceptions the modelled code can raise. *)
Inductive exn : Set :=
| ValueError   (* ProcessPoolExecutor: max_workers must be greater than 0;
                  lxml: All strings must be XML compatible *)
| IndexError.  (* list index out of range *)

Inductive result (A : Type) : Type :=
| Ok (a : A)
| Raise (e : exn).
Arguments Ok {A} a.
Arguments Raise {A} e.

Definition bind {A B : Type} (r : result A) (k : A -> result B) : result B :=
  match r with
  | Ok a => k a
  | Raise e => Raise e
  end.

(** A Python float, by its exact value. *)
Definition float : Set := Qc.

Definition float_of_Z (z : Z) : float := Q2Qc (inject_Z z).

(** [x <= y] and [x < y] on floats. *)
Definition leb (x y : float) : bool := Qle_bool x y.
Definition ltb (x y : float) : bool := negb (Qle_bool y x).

(** [int(x)]: truncation toward zero. *)
Definition int (x : float) : Z := Z.quot (Qnum x) (Zpos (Qden x)).

(** [l[i]], with Python's negative indices and its [IndexError]. *)
Definition getitem {A : Type} (l : list A) (i : Z) : result A :=
  let n := Z.of_nat (List.length l) in
  let j := if (i <? 0)%Z then (i + n)%Z else i in
  if ((0 <=? j) && (j <? n))%Z
  then match nth_error l (Z.to_nat j) with
       | Some x => Ok x
       | None => Raise IndexError
       end
  else Raise IndexError.

(** [sorted(l)] on floats: ascending and stable.  Insertion from the
    right, each element placed before the first one that is not below
    it, gives the list every stable sort returns. *)
Fixpoint insert (x : float) (l : list float) : list float :=
  match l with
  | [] => [x]
  | y :: l' => if leb x y then x :: l else y :: insert x l'
  end.

Fixpoint sorted (l : list float) : list float :=
  match l with
  | [] => []
  | x :: l' => insert x (sorted l')
  end.

(** [s.replace(old, new)]: the occurrences of [old] are found from left
    to right and do not overlap.  [skip] counts the characters of the
    occurrence just replaced that are still to be dropped. *)
Fixpoint replace_from (old new : string) (skip : nat) (s : string) : string :=
  match s with
  | EmptyString => EmptyString
  | String c s' =>
      match skip with
      | S k => replace_from old new k s'
      | O =>
          if prefix old s
          then new ++ replace_from old new (String.length old - 1) s'
          else String c (replace_from old new 0 s')
      end
  end.

(** With an empty [old], Python puts [new] before every character and
    at the end. *)
Fixpoint intersperse (new s : string) : string :=
  match s with
  | EmptyString => new
  | String c s' => new ++ String c (intersperse new s')
  end.

Definition replace (old new s : string) : string :=
  match old with
  | EmptyString => intersperse new s
  | String _ _ => replace_from old new 0 s
  end.

(** [old in s] *)
Fixpoint contains (old s : string) : bool :=
  prefix old s ||
  match s with
  | EmptyString => false
  | String _ s' => contains old s'
  end.

(** Rounding of a rational to the nearest integer, ties to even: the
    rounding of Python's float formatting. *)
Definition round_half_even (q : Q) : Z :=
  let n := Qnum q in
  let d := Zpos (Qden q) in
  let fl := (n / d)%Z in
  match (2 * (n mod d) ?= d)%Z with
  | Lt => fl
  | Gt => (fl + 1)%Z
  | Eq => if Z.even fl then fl else (fl + 1)%Z
  end.

Definition digit (z : Z) : ascii := ascii_of_nat (48 + Z.to_nat z).

Definition str_of_Z (z : Z) : string :=
  NilZero.string_of_uint (N.to_uint (Z.to_N z)).

(** The text of [n / 10000] with four decimals, for [0 <= n]. *)
Definition fixed4 (n : Z) : string :=
  let f := (n mod 10000)%Z in
  str_of_Z (n / 10000) ++ "." ++
  String (digit (f / 1000))
    (String (digit (f / 100 mod 10))
       (String (digit (f / 10 mod 10))
          (String (digit (f mod 10)) EmptyString))).

(** [f"{x:.4f}"]. *)
Definition format_4f (x : float) : string :=
  let n := round_half_even (x * float_of_Z 10000)%Qc in
  (if ltb x (float_of_Z 0) then "-" else EmptyString) ++ fixed4 (Z.abs n).

End Py.

Import Py.

(** ** Double precision

    [SpecFloat] is the standard library's executable IEEE 754 model;
    binary64 has a 53-bit mantissa and exponents below 1024. *)

Module Binary64.

Definition prec : Z := 53%Z.
Definition emax : Z := 1024%Z.

(** [float(n)] for a Python int: the nearest double, ties to even. *)
Definition of_int (n : Z) : spec_float :=
  binary_normalize prec emax n 0%Z false.

(** The literal [0.99]: the double nearest to 99/100, which is
    8917127262193582 / 2^53. *)
Definition lit_0_99 : spec_float :=
  S754_finite false 8917127262193582 (-53).

(** [x * y] on doubles. *)
Definition mul : spec_float -> spec_float -> spec_float := SFmul prec emax.

(** [int(x)]: truncation toward zero; infinities and NaN have none. *)
Definition to_int (x : spec_float) : option Z :=
  match x with
  | S754_zero _ => Some 0%Z
  | S754_finite s m e =>
      let v := if (0 <=? e)%Z then (Zpos m * 2 ^ e)%Z
               else (Zpos m / 2 ^ (- e))%Z in
      Some (if s then (- v)%Z else v)
  | S754_infinity _ | S754_nan => None
  end.

(** [int(0.99 * n)] *)
Definition thresh_index (n : Z) : option Z :=
  to_int (mul lit_0_99 (of_int n)).

(** What [SpecFloat]'s shift register [mrs] holds after [k] single right
    shifts of the mantissa [m0]: the quotient by [2 ^ k], the bit shifted
    out last ([shr_r]), and whether a lower bit was set ([shr_s]). *)
Definition shifted (m0 : Z) (k : nat) (mrs : shr_record) : Prop :=
  let P := (2 ^ Z.of_nat k)%Z in
  (0 <= shr_m mrs)%Z /\
  exists u, (0 <= u < P)%Z /\
    (2 * m0 = shr_m mrs * (2 * P) + (if shr_r mrs then P else 0) + u)%Z /\
    (shr_s mrs = true <-> (0 < u)%Z) /\
    (k = 0%nat -> shr_r mrs = false).

(** [2 ^ e] as a rational, for every integer [e]. *)
Definition pow2 (e : Z) : Q := (2 ^ e)%Q.

(** What an operation on finite doubles returns: a finite double, by its
    value, or an infinity.  As everywhere in the model, a zero carries no
    sign. *)
Inductive rounded : Set :=
| Finite (v : float)
| Infinite (negative : bool).

(** The exponent of the last mantissa bit of the doubles next to the
    positive rational [q]: [floor (log2 q) - 52], and -1074 among the
    subnormal numbers. *)
Definition last_bit (q : Q) : Z :=
  let k := (Z.log2 (Qnum q) - Z.log2 (Zpos (Qden q)))%Z in
  let l := if Qle_bool (pow2 k) q then k else (k - 1)%Z in
  Z.max (l - 52) (-1074).

(** The double nearest to a rational, ties to the even mantissa; an
    infinity from 2^1024 on. *)
Definition nearest (x : float) : rounded :=
  let negative := (Qnum x <? 0)%Z in
  let q := Qabs x in
  if (Qnum x =? 0)%Z then Finite x
  else
    let e := last_bit q in
    let m := round_half_even (q * pow2 (- e)) in
    let v := (inject_Z m * pow2 e)%Q in
    if Qle_bool (pow2 1024) v then Infinite negative
    else Finite (Q2Qc (if negative then - v else v)).

(** [x - y] on doubles: the exact difference, rounded. *)
Definition sub (x y : float) : rounded := nearest (x - y)%Qc.

(** A [SpecFloat] double as a [rounded], to compare [sub] with [SFsub];
    NaN is none.  [value] is the value of a finite double. *)
Definition of_spec (x : spec_float) : option rounded :=
  match x with
  | S754_zero _ => Some (Finite (Q2Qc 0))
  | S754_finite s m e =>
      let v := (inject_Z (Zpos m) * pow2 e)%Q in
      Some (Finite (Q2Qc (if s then - v else v)))
  | S754_infinity s => Some (Infinite s)
  | S754_nan => None
  end.

Definition value (x : spec_float) : float :=
  match of_spec x with
  | Some (Finite v) => v
  | _ => Q2Qc 0
  end.

(** Zeros and finite numbers, as opposed to infinities and NaN. *)
Definition finite (x : spec_float) : bool :=
  match x with
  | S754_zero _ | S754_finite _ _ _ => true
  | S754_infinity _ | S754_nan => false
  end.

(** [f"{x:.4f}"] on what an operation returned. *)
Definition format (r : rounded) : string :=
  match r with
  | Finite v => format_4f v
  | Infinite false => "inf"
  | Infinite true => "-inf"
  end.

End Binary64.

Notation "x <- r ;; k" := (Py.bind r (fun x => k))
  (at level 61, r at next level, right associativity).
Notation "' p <- r ;; k" := (Py.bind r (fun x => let p := x in k))
  (at level 61, p pattern, r at next level, right associativity).

Local Open Scope list_scope.

(** A [for] loop that builds a list and stops at the first exception. *)
Fixpoint for_each {A B : Type} (f : A -> result B) (l : list A)
  : result (list B) :=
  match l with
  | [] => Ok []
  | a :: l' => b <- f a ;; bs <- for_each f l' ;; Ok (b :: bs)
  end.

(** ** The attribute texts lxml accepts

    [etree.SubElement(parent, tag, **attrib)] takes XML-compatible texts
    only: no NULL byte and no control character other than tab, newline
    and carriage return.  On any other text it raises [ValueError]. *)

Definition xml_char (c : ascii) : bool :=
  let n := nat_of_ascii c in
  ((n =? 9) || (n =? 10) || (n =? 13) || (32 <=? n))%nat.

Fixpoint xml_compatible (s : string) : bool :=
  match s with
  | EmptyString => true
  | String c s' => xml_char c && xml_compatible s'
  end.

Definition xml_text (s : string) : result string :=
  if xml_compatible s then Ok s else Raise ValueError.

(** ** [downstream/quesst14/expert.py] *)

Section Expert.

(** A feature sequence (a numpy array in the source) and the alignment
    cost of [segmental_dtw], the Cython module the expert imports. *)
Context {feature : Type}.
Variable segmental_dtw : feature -> feature -> float.

(** [match(query, doc, query_name, doc_name)] *)
Definition match_ (query doc : feature) (query_name doc_name : string)
  : string * string * float :=
  let cost := segmental_dtw query doc in
  (query_name, doc_name, (float_of_Z (-1) * cost)%Qc).

(** [records]: the two lists [forward] appends to. *)
Record records : Type := {
  features : list feature;
  audio_names : list string
}.

(** A future stands for one submitted call of [match]; its fields are
    the arguments of the call. *)
Record future : Type := {
  fut_query : feature;
  fut_doc : feature;
  fut_query_name : string;
  fut_doc_name : string
}.

(** [future.result()] *)
Definition future_result (f : future) : string * string * float :=
  match_ (fut_query f) (fut_doc f) (fut_query_name f) (fut_doc_name f).

Definition future_score (f : future) : float := snd (future_result f).

(** What the collection loop files under the future's query name. *)
Definition item_of (f : future) : string * float :=
  (fut_doc_name f, future_score f).

(** [ProcessPoolExecutor(max_workers)] *)
Definition ProcessPoolExecutor (max_workers : Z) : result unit :=
  if (max_workers <=? 0)%Z then Raise ValueError else Ok tt.

(** The call submitted for one query and one document, each with its
    name: the body of the inner loop. *)
Definition task_of (q d : feature * string) : future :=
  {| fut_query := fst q; fut_doc := fst d;
     fut_query_name := replace ".wav" EmptyString (snd q);
     fut_doc_name := replace ".wav" EmptyString (snd d) |}.

(** The two nested loops that fill [futures]. *)
Definition submit_all (queries : list feature) (query_names : list string)
    (docs : list feature) (doc_names : list string) : list future :=
  flat_map
    (fun '(query, query_name) =>
       let query_name := replace ".wav" EmptyString query_name in
       map (fun '(doc, doc_name) =>
              let doc_name := replace ".wav" EmptyString doc_name in
              {| fut_query := query; fut_doc := doc;
                 fut_query_name := query_name; fut_doc_name := doc_name |})
           (combine docs doc_names))
    (combine queries query_names).

(** [results], a [defaultdict(list)]: keys in the order of their first
    insertion, as a Python dict keeps them. *)
Definition results_dict : Type := list (string * list (string * float)).

(** [results[key].append(item)] *)
Fixpoint dict_append (key : string) (item : string * float)
    (results : results_dict) : results_dict :=
  match results with
  | [] => [(key, [item])]
  | (k, items) :: rest =>
      if String.eqb k key
      then (k, items ++ [item]) :: rest
      else (k, items) :: dict_append key item rest
  end.

(** [results[key]] read without inserting. *)
Fixpoint dict_get (key : string) (results : results_dict)
  : list (string * float) :=
  match results with
  | [] => []
  | (k, items) :: rest =>
      if String.eqb k key then items else dict_get key rest
  end.

Definition dict_keys (results : results_dict) : list string :=
  map fst results.

(** Every (key, item) pair of the dictionary, key by key. *)
Definition dict_items (results : results_dict)
  : list (string * (string * float)) :=
  flat_map (fun e => map (pair (fst e)) (snd e)) results.

(** One turn of the collection loop. *)
Definition collect_step (acc : results_dict * list float) (fut : future)
  : results_dict * list float :=
  let '(results, scores) := acc in
  let '(query_name, doc_name, score) := future_result fut in
  (dict_append query_name (doc_name, score) results, scores ++ [score]).

(** The collection loop over the futures in completion order. *)
Definition collect (order : list future) : results_dict * list float :=
  fold_left collect_step order ([], []).

(** [as_completed(futures)]: the futures in the order in which the
    workers finish them.  The order is the scheduler's, so the function is
    a parameter; what [concurrent.futures] promises of it is
    [yields_each_once]. *)
Variable as_completed : list future -> list future.

Definition yields_each_once : Prop :=
  forall futures, Permutation futures (as_completed futures).

(** The [with ProcessPoolExecutor(...)] block. *)
Definition dispatch (num_workers : Z)
    (queries : list feature) (query_names : list string)
    (docs : list feature) (doc_names : list string)
  : result (results_dict * list float) :=
  _ <- ProcessPoolExecutor num_workers ;;
  let futures := submit_all queries query_names docs doc_names in
  Ok (collect (as_completed futures)).

(** "Determine score threshold" *)
Definition determine_threshold (scores : list float)
  : result (float * float) :=
  let scores := sorted scores in
  score_thresh <-
    getitem scores
      (int (Q2Qc (99 # 100) * float_of_Z (Z.of_nat (List.length scores)))%Qc) ;;
  score_min <- getitem scores 0%Z ;;
  Ok (score_thresh, score_min).

(** The XML tree: [term], [detected_termlist] and the [stdlist] root,
    each with the attributes the source sets. *)
Record term : Set := {
  file : string;
  channel : string;
  tbeg : string;
  dur : string;
  score : string;
  decision : string
}.

Record detected_termlist : Set := {
  termid : string;
  term_search_time : string;
  oov_term_count : string;
  terms : list term
}.

Record stdlist : Set := {
  termlist_filename : string;
  indexing_time : string;
  language : string;
  index_size : string;
  system_id : string;
  termlists : list detected_termlist
}.

(** [etree.SubElement(term_list, "term", file=doc_name, ...)]: the
    difference [score - score_min] is taken in double precision and then
    rendered; of the attribute texts only the name can be refused. *)
Definition build_term (score_thresh score_min : float)
    (item : string * float) : result term :=
  let '(doc_name, score) := item in
  file <- xml_text doc_name ;;
  Ok {| file := file;
        channel := "1";
        tbeg := "0.000";
        dur := "0.00";
        score := Binary64.format (Binary64.sub score score_min);
        decision := if ltb score_thresh score then "YES" else "NO" |}.

(** [etree.SubElement(root, "detected_termlist", termid=query_name, ...)]
    and the loop over the query's documents. *)
Definition build_termlist (score_thresh score_min : float)
    (entry : string * list (string * float)) : result detected_termlist :=
  let '(query_name, doc_scores) := entry in
  termid <- xml_text query_name ;;
  terms <- for_each (build_term score_thresh score_min) doc_scores ;;
  Ok {| termid := termid;
        term_search_time := "1.0";
        oov_term_count := "1";
        terms := terms |}.

(** "Build XML tree" *)
Definition build_tree (results : results_dict)
    (score_thresh score_min : float) : result stdlist :=
  termlists <- for_each (build_termlist score_thresh score_min) results ;;
  Ok {| termlist_filename := "benchmark.stdlist.xml";
        indexing_time := "1.00";
        language := "english";
        index_size := "1";
        system_id := "benchmark";
        termlists := termlists |}.

(** [log_records(records)], up to the tree that is written to
    [benchmark.stdlist.xml].  [num_workers] is [datarc["num_workers"]] and
    [n_queries] is [test_dataset.n_queries]. *)
Definition log_records (num_workers : Z) (n_queries : nat) (rec : records)
  : result stdlist :=
  let queries := firstn n_queries (features rec) in
  let docs := skipn n_queries (features rec) in
  let query_names := firstn n_queries (audio_names rec) in
  let doc_names := skipn n_queries (audio_names rec) in
  '(results, scores) <-
    dispatch num_workers queries query_names docs doc_names ;;
  '(score_thresh, score_min) <- determine_threshold scores ;;
  build_tree results score_thresh score_min.

(** The (query name, term) pairs of a tree, in document order. *)
Definition report_entries (tree : stdlist) : list (string * term) :=
  flat_map (fun tl => map (fun t => (termid tl, t)) (terms tl))
           (termlists tree).

(** The term, the termlist and the tree that are built when no name is
    refused, and the test that none is. *)
Definition term_of (score_thresh score_min : float)
    (item : string * float) : term :=
  {| file := fst item;
     channel := "1";
     tbeg := "0.000";
     dur := "0.00";
     score := Binary64.format (Binary64.sub (snd item) score_min);
     decision := if ltb score_thresh (snd item) then "YES" else "NO" |}.

Definition termlist_of (score_thresh score_min : float)
    (entry : string * list (string * float)) : detected_termlist :=
  {| termid := fst entry;
     term_search_time := "1.0";
     oov_term_count := "1";
     terms := map (term_of score_thresh score_min) (snd entry) |}.

Definition tree_of (results : results_dict)
    (score_thresh score_min : float) : stdlist :=
  {| termlist_filename := "benchmark.stdlist.xml";
     indexing_time := "1.00";
     language := "english";
     index_size := "1";
     system_id := "benchmark";
     termlists := map (termlist_of score_thresh score_min) results |}.

Definition names_accepted (results : results_dict) : bool :=
  forallb (fun e => xml_compatible (fst e) &&
                    forallb (fun item => xml_compatible (fst item)) (snd e))
          results.

End Expert.

Arguments records : clear implicits.
Arguments future : clear implicits.

(** ** [forward] *)

Section Forward.

(** A feature as the upstream model hands it over (a torch tensor), and
    [feature.detach().cpu().numpy().astype(np.double)]. *)
Context {tensor feature : Type}.
Variable to_double : tensor -> feature.

(** One turn of the loop of [forward]: both lists of [records] grow by
    one item. *)
Definition forward_step (rec : records feature) (item : tensor * string)
  : records feature :=
  let '(feature, audio_name) := item in
  let feature := to_double feature in
  {| features := features rec ++ [feature];
     audio_names := audio_names rec ++ [audio_name] |}.

(** [forward(features, audio_names, records)]: the records as the call
    leaves them, and the returned [torch.zeros(1)]. *)
Definition forward (features : list tensor) (audio_names : list string)
    (rec : records feature) : records feature * list float :=
  (fold_left forward_step (combine features audio_names) rec,
   [float_of_Z 0]).

End Forward.

(** ** The report's [file] attribute as the specification words it *)

(** The specification describes [file] as the document name with a
    trailing container-format suffix removed and the rest kept as it is:
    [name.removesuffix(suffix)].  [log_records] does not call this
    function; it is here to be compared with what [log_records] does. *)
Fixpoint removesuffix (suffix s : string) : string :=
  if String.eqb s suffix then EmptyString
  else match s with
       | EmptyString => EmptyString
       | String c s' => String c (removesuffix suffix s')
       end.

(** ** A sample run *)

(** One query against three documents.  Clips are stood for by numbers,
    and the sample cost of a pair is the document's number over 32768:
    the costs are 0, 1/32768 and 2. *)
Definition sample_dtw (query doc : Z) : float := Q2Qc (doc # 32768).

Definition sample_records : records Z :=
  {| features := [7; 0; 1; 65536]%Z;
     audio_names := ["q1.wav"; "d1.wav"; "d2"; "hello.wave.wav"] |}.

Definition sample_queries : list Z := firstn 1 (features sample_records).
Definition sample_query_names : list string :=
  firstn 1 (audio_names sample_records).
Definition sample_docs : list Z := skipn 1 (features sample_records).
Definition sample_doc_names : list string :=
  skipn 1 (audio_names sample_records).

(** The scores of the three pairs, in the order of submission. *)
Definition sample_scores : list float :=
  [Q2Qc 0; Q2Qc (-1 # 32768); Q2Qc (-2)].

(** The records before the first call of [forward], and a batch whose
    last tensor comes without a name. *)
Definition no_records : records Z := {| features := []; audio_names := [] |}.
Definition sample_batch : list Z := [7; 0; 1; 65536; 9]%Z.

(** One query and one document whose name holds a control character
    (BEL, code 7). *)
Definition bell_records : records Z :=
  {| features := [7; 0]%Z;
     audio_names := ["q1.wav"; String (ascii_of_nat 7) "d1.wav"] |}.

(** Two queries whose names differ only by [".wav"], against two
    documents. *)
Definition twin_queries : list Z := [1; 2]%Z.
Definition twin_query_names : list string := ["a.wav"; "a"].
Definition twin_docs : list Z := [3; 4]%Z.
Definition twin_doc_names : list string := ["d1.wav"; "d2.wav"].

(** Two completion orders: last submitted first, and as submitted. *)
Definition last_first : list (future Z) -> list (future Z) := @rev _.
Definition as_submitted : list (future Z) -> list (future Z) :=
  fun futures => futures.

Definition sample_term (file score : string) : term :=
  {| file := file; channel := "1"; tbeg := "0.000"; dur := "0.00";
     score := score; decision := "NO" |}.

(** The tree of the sample run when the last submitted call finishes
    first. *)
Definition sample_tree : stdlist :=
  {| termlist_filename := "benchmark.stdlist.xml";
     indexing_time := "1.00";
     language := "english";
     index_size := "1";
     system_id := "benchmark";
     termlists :=
       [ {| termid := "q1";
            term_search_time := "1.0";
            oov_term_count := "1";
            terms := [ sample_term "helloe" "0.0000";
                       sample_term "d2" "2.0000";
                       sample_term "d1" "2.0000" ] |} ] |}.

(** * Properties *)

(** ** [str.replace] with [".wav"] *)

Lemma replace_from_absent (old new s : string) :
  contains old s = false -> replace_from old new 0 s = s.
Proof.
  induction s as [|c s IH]; [reflexivity|].
  cbn [contains replace_from]. intros H.
  apply orb_false_iff in H as [Hp Hc]. rewrite Hp, IH; auto.
Qed.

(** An occurrence of [".wav"] cannot begin inside a name and end inside a
    [".wav"] put after it. *)
Lemma wav_no_straddle (c : ascii) (s : string) :
  prefix ".wav" (String c s) = false ->
  prefix ".wav" (String c s ++ ".wav")%string = false.
Proof.
  destruct s as [|c2 [|c3 [|c4 r]]]; cbn [prefix append];
    repeat match goal with
           | |- context [ascii_dec ?a ?b] => destruct (ascii_dec a b); subst
           end; try reflexivity; try discriminate.
  destruct r; discriminate.
Qed.

Lemma replace_wav_trailing (stem : string) :
  contains ".wav" stem = false ->
  replace_from ".wav" EmptyString 0 (stem ++ ".wav")%string = stem.
Proof.
  induction stem as [|c s IH]; [reflexivity|].
  intros H. cbn [contains] in H. apply orb_false_iff in H as [Hp Hc].
  change ((String c s ++ ".wav")%string) with (String c (s ++ ".wav")%string).
  cbn [replace_from].
  change (String c (s ++ ".wav")%string) with ((String c s ++ ".wav")%string).
  rewrite (wav_no_straddle _ _ Hp), (IH Hc). reflexivity.
Qed.

Lemma removesuffix_cases (suffix s : string) :
  removesuffix suffix s = s \/ s = (removesuffix suffix s ++ suffix)%string.
Proof.
  induction s as [|c s IH]; cbn [removesuffix].
  - destruct (String.eqb_spec EmptyString suffix) as [<-|]; auto.
  - destruct (String.eqb_spec (String c s) suffix) as [<-|]; [now right|].
    destruct IH as [IH|IH]; [left|right]; simpl; congruence.
Qed.

(** When [".wav"] occurs in a name at its end only, or not at all,
    [replace] removes exactly the trailing suffix. *)
Lemma replace_wav_removesuffix (name : string) :
  contains ".wav" (removesuffix ".wav" name) = false ->
  replace ".wav" EmptyString name = removesuffix ".wav" name.
Proof.
  intros H. unfold replace.
  destruct (removesuffix_cases ".wav" name) as [E|E].
  - rewrite E in *. now apply replace_from_absent.
  - rewrite E at 1. now apply replace_wav_trailing.
Qed.

(** ** Order on floats and [sorted] *)

Lemma leb_le (x y : float) : leb x y = true <-> (x <= y)%Qc.
Proof. unfold leb, Qcle. apply Qle_bool_iff. Qed.

Lemma ltb_lt (x y : float) : ltb x y = true <-> (x < y)%Qc.
Proof.
  unfold ltb. rewrite negb_true_iff. split; intros H.
  - apply Qcnot_le_lt. intros Hle. apply leb_le in Hle.
    unfold leb in Hle. congruence.
  - destruct (Qle_bool y x) eqn:E; [|reflexivity].
    apply Qle_bool_iff in E. apply Qclt_not_le in H. contradiction.
Qed.

Lemma leb_false_le (x y : float) : leb x y = false -> (y <= x)%Qc.
Proof.
  intros H. apply Qclt_le_weak. apply ltb_lt. unfold ltb, leb in *.
  now rewrite H.
Qed.

Lemma insert_perm (x : float) (l : list float) :
  Permutation (x :: l) (insert x l).
Proof.
  induction l as [|y l IH]; simpl; [reflexivity|].
  destruct (leb x y); [reflexivity|].
  rewrite perm_swap. now apply perm_skip.
Qed.

Lemma sorted_perm (l : list float) : Permutation l (sorted l).
Proof.
  induction l as [|x l IH]; simpl; [constructor|].
  rewrite <- insert_perm. now apply perm_skip.
Qed.

Lemma sorted_length (l : list float) : List.length (sorted l) = List.length l.
Proof. symmetry. apply Permutation_length, sorted_perm. Qed.

Lemma insert_sorted (x : float) (l : list float) :
  StronglySorted Qcle l -> StronglySorted Qcle (insert x l).
Proof.
  induction 1 as [|y l Hs IH Hall]; simpl.
  - repeat constructor.
  - destruct (leb x y) eqn:E.
    + apply leb_le in E. constructor; [now constructor|].
      constructor; [exact E|].
      eapply Forall_impl; [|exact Hall].
      intros z Hz. eapply Qcle_trans; eassumption.
    + apply leb_false_le in E. constructor; [exact IH|].
      eapply Permutation_Forall; [apply insert_perm|].
      now constructor.
Qed.

Lemma sorted_ascending (l : list float) : StronglySorted Qcle (sorted l).
Proof.
  induction l as [|x l IH]; simpl; [constructor|].
  now apply insert_sorted.
Qed.

(** An ascending list is determined by its elements. *)
Lemma ascending_unique (l1 l2 : list float) :
  StronglySorted Qcle l1 -> StronglySorted Qcle l2 ->
  Permutation l1 l2 -> l1 = l2.
Proof.
  intros H1. revert l2.
  induction H1 as [|x l1 Hs1 IH Hall1]; intros l2 H2 HP.
  - apply Permutation_nil in HP. now subst.
  - destruct H2 as [|y l2 Hs2 Hall2].
    + apply Permutation_sym, Permutation_nil in HP. discriminate.
    + assert (Hxy : x = y).
      { apply Qcle_antisym.
        - assert (Hin : In y (x :: l1))
            by (eapply Permutation_in; [symmetry; exact HP|now left]).
          destruct Hin as [->|Hin]; [apply Qcle_refl|].
          rewrite Forall_forall in Hall1. now apply Hall1.
        - assert (Hin : In x (y :: l2))
            by (eapply Permutation_in; [exact HP|now left]).
          destruct Hin as [->|Hin]; [apply Qcle_refl|].
          rewrite Forall_forall in Hall2. now apply Hall2. }
      subst y. f_equal. apply IH; [exact Hs2|].
      eapply Permutation_cons_inv; exact HP.
Qed.

Lemma sorted_of_permutation (l1 l2 : list float) :
  Permutation l1 l2 -> sorted l1 = sorted l2.
Proof.
  intros HP. apply ascending_unique; try apply sorted_ascending.
  rewrite <- !sorted_perm. exact HP.
Qed.

(** ** [int] and list indexing *)

Lemma int_nonneg_floor (x : float) : (0 <= x)%Qc -> int x = Qfloor x.
Proof.
  intros H. unfold int. destruct x as [[n d] Hc]; simpl in *.
  unfold Qcle, Qle in H; simpl in H.
  apply Z.quot_div_nonneg; lia.
Qed.

Lemma this_mult_99_100 (n : Z) :
  (this (Q2Qc (99 # 100) * float_of_Z n)%Qc == (99 * n # 100))%Q.
Proof.
  change (this (Q2Qc (99 # 100) * float_of_Z n)%Qc)
    with (Qred (Qred (99 # 100) * Qred (inject_Z n))).
  rewrite !Qred_correct. unfold Qeq, Qmult, inject_Z; simpl. lia.
Qed.

(** [int(0.99 * n)] is the integer quotient of [99 * n] by [100]. *)
Lemma thresh_index_floor (n : nat) :
  int (Q2Qc (99 # 100) * float_of_Z (Z.of_nat n))%Qc
  = (99 * Z.of_nat n / 100)%Z.
Proof.
  rewrite int_nonneg_floor.
  - rewrite (Qfloor_comp _ _ (this_mult_99_100 _)). reflexivity.
  - unfold Qcle. rewrite this_mult_99_100.
    change (this 0%Qc) with (0 # 1). unfold Qle; cbn [Qnum Qden]. lia.
Qed.

Lemma getitem_in_range {A : Type} (l : list A) (i : Z) :
  (0 <= i < Z.of_nat (List.length l))%Z ->
  exists x, getitem l i = Ok x /\ nth_error l (Z.to_nat i) = Some x.
Proof.
  intros H. unfold getitem.
  destruct (Z.ltb_spec i 0); [lia|].
  destruct (Z.leb_spec 0 i); [|lia].
  destruct (Z.ltb_spec i (Z.of_nat (List.length l))); [|lia]. simpl.
  destruct (nth_error l (Z.to_nat i)) as [x|] eqn:E.
  - now exists x.
  - apply nth_error_None in E. lia.
Qed.

Lemma getitem_nil {A : Type} (i : Z) : getitem (@nil A) i = Raise IndexError.
Proof.
  unfold getitem; simpl.
  destruct (i <? 0)%Z, (0 <=? _)%Z, (_ <? 0)%Z; simpl; try reflexivity;
    now destruct (Z.to_nat _).
Qed.

(** ** Rounding to four decimals *)

Lemma round_half_even_close (n : Z) (d : positive) :
  let z := round_half_even (n # d) in
  (2 * n - Zpos d <= 2 * z * Zpos d <= 2 * n + Zpos d)%Z.
Proof.
  unfold round_half_even; cbn [Qnum Qden].
  pose proof (Z.div_mod n (Zpos d) ltac:(lia)) as Hdm.
  pose proof (Z.mod_pos_bound n (Zpos d) ltac:(lia)) as Hb.
  destruct (Z.compare_spec (2 * (n mod Zpos d)) (Zpos d));
    [destruct (Z.even _)| |]; nia.
Qed.

Lemma round_half_even_near (q : Q) :
  (inject_Z (round_half_even q) - (1 # 2) <= q
   /\ q <= inject_Z (round_half_even q) + (1 # 2))%Q.
Proof.
  destruct q as [n d]. pose proof (round_half_even_close n d) as H.
  cbv zeta in H. unfold Qle, Qminus, Qplus, Qopp, inject_Z; cbn [Qnum Qden].
  split; nia.
Qed.

Lemma round_half_even_nonneg (q : Q) :
  (0 <= q)%Q -> (0 <= round_half_even q)%Z.
Proof.
  destruct q as [n d]. pose proof (round_half_even_close n d) as H.
  cbv zeta in H. unfold Qle; cbn [Qnum Qden]. intros Hn. nia.
Qed.

(** On a float that is not negative, [format_4f] writes the integer
    nearest to [10000 * x], ties to even, with the point four digits from
    the right. *)
Lemma format_4f_nonneg (x : float) :
  (0 <= x)%Qc ->
  exists m : Z,
    format_4f x = fixed4 m /\
    (0 <= m)%Z /\
    (float_of_Z m - Q2Qc (1 # 2) <= x * float_of_Z 10000)%Qc /\
    (x * float_of_Z 10000 <= float_of_Z m + Q2Qc (1 # 2))%Qc.
Proof.
  intros Hx.
  set (y := (x * float_of_Z 10000)%Qc).
  assert (Hy : (0 <= y)%Q).
  { change (0 <= y)%Qc. subst y.
    replace 0%Qc with (0 * float_of_Z 10000)%Qc by ring.
    apply Qcmult_le_compat_r; [exact Hx|]. now vm_compute. }
  exists (round_half_even y).
  pose proof (round_half_even_nonneg y Hy) as Hm.
  pose proof (round_half_even_near y) as [Hlo Hhi].
  split; [|split; [exact Hm|split]].
  - unfold format_4f. fold (float_of_Z 10000). fold y.
    replace (ltb x (float_of_Z 0)) with false.
    + simpl. now rewrite Z.abs_eq.
    + symmetry. apply not_true_is_false. intros Hlt. apply ltb_lt in Hlt.
      apply Qclt_not_le in Hlt. now apply Hlt.
  - unfold Qcle, Qcminus, Qcplus, Qcopp, float_of_Z, Q2Qc; cbn [this].
    now rewrite !Qred_correct.
  - unfold Qcle, Qcminus, Qcplus, Qcopp, float_of_Z, Q2Qc; cbn [this].
    now rewrite !Qred_correct.
Qed.

(** ** The difference in double precision *)

Lemma pow2_pos (e : Z) : (0 < Binary64.pow2 e)%Q.
Proof. apply Qpower_0_lt. reflexivity. Qed.

(** The double nearest to a rational that is not negative is not
    negative either. *)
Lemma nearest_nonneg (x : float) :
  (0 <= x)%Qc ->
  Binary64.nearest x = Binary64.Infinite false \/
  exists v, Binary64.nearest x = Binary64.Finite v /\ (0 <= v)%Qc.
Proof.
  intros Hx. unfold Binary64.nearest.
  assert (Hn : (0 <= Qnum x)%Z).
  { unfold Qcle, Qle in Hx; cbn in Hx. lia. }
  destruct (Qnum x =? 0)%Z; [right; eauto|].
  replace (Qnum x <? 0)%Z with false by (symmetry; apply Z.ltb_ge; exact Hn).
  destruct (Qle_bool _ _); [left; reflexivity|right].
  eexists; split; [reflexivity|].
  unfold Qcle; cbn [this Q2Qc]. rewrite !Qred_correct.
  apply Qmult_le_0_compat; [|apply Qlt_le_weak, pow2_pos].
  change 0%Q with (inject_Z 0). rewrite <- Zle_Qle.
  apply round_half_even_nonneg.
  apply Qmult_le_0_compat; [apply Qabs_nonneg|apply Qlt_le_weak, pow2_pos].
Qed.

(** [x - x] is [0.0], which is written ["0.0000"]. *)
Lemma sub_diag (x : float) :
  Binary64.format (Binary64.sub x x) = "0.0000".
Proof.
  unfold Binary64.sub, Qcminus. rewrite Qcplus_opp_r. reflexivity.
Qed.

(** ** [-1 * cost] and [int(0.99 * n)] in double precision *)

Section Double.

Import Binary64.
Local Open Scope Z_scope.

(** [lit_0_99] is a double, and no double is nearer to 99/100: the
    spacing of doubles in [1/2, 1) is 2^-53, and the mantissa is off by
    8/100 of that. *)
Lemma lit_0_99_nearest :
  valid_binary prec emax lit_0_99 = true /\
  99 * 2 ^ 53 - 100 * 8917127262193582 = 8.
Proof. split; reflexivity. Qed.

Lemma iter_pos_nat {A} (f : A -> A) (p : positive) (x : A) :
  iter_pos f p x = Nat.iter (Pos.to_nat p) f x.
Proof.
  revert x. induction p as [p IH|p IH|]; intros x; cbn [iter_pos].
  - rewrite !IH, Pos2Nat.inj_xI.
    replace (S (2 * Pos.to_nat p))%nat with (Pos.to_nat p + (Pos.to_nat p + 1))%nat by lia.
    rewrite !Nat.iter_add. reflexivity.
  - rewrite !IH, Pos2Nat.inj_xO.
    replace (2 * Pos.to_nat p)%nat with (Pos.to_nat p + Pos.to_nat p)%nat by lia.
    rewrite Nat.iter_add. reflexivity.
  - reflexivity.
Qed.

Lemma shr_1_nonneg (m : Z) (r s : bool) :
  0 <= m ->
  shr_1 {| shr_m := m; shr_r := r; shr_s := s |}
  = {| shr_m := m / 2; shr_r := Z.odd m; shr_s := r || s |}.
Proof.
  intros Hm. destruct m as [|[p|p|]|p]; try lia; cbn [shr_1].
  - reflexivity.
  - f_equal. apply (Z.div_unique _ 2 _ 1); lia.
  - f_equal. apply (Z.div_unique _ 2 _ 0); lia.
  - reflexivity.
Qed.

Lemma of_int_minus_one :
  of_int (-1) = S754_finite true 4503599627370496 (-52).
Proof. reflexivity. Qed.

(** The product of [-1] and a double is the double with its sign
    flipped: nothing is rounded, and zeros, infinities and NaN behave the
    same way. *)
Lemma minus_one_mul_exact (x : spec_float) :
  valid_binary prec emax x = true ->
  mul (of_int (-1)) x = SFopp x.
Proof.
  intros Hx. rewrite of_int_minus_one.
  destruct x as [s|s| |s m e]; try reflexivity.
  cbn [valid_binary] in Hx. unfold bounded, canonical_mantissa in Hx.
  apply andb_true_iff in Hx as [Hc He].
  apply Z.eqb_eq in Hc. apply Z.leb_le in He.
  unfold mul, prec, emax in *. cbn [SFmul xorb SFopp].
  unfold binary_round_aux, shr_fexp.
  cbn [Pos.mul Zdigits2 digits2_pos].
  match goal with
  | |- context [fexp 53 1024 (Z.pos ?p + (-52 + e))] =>
      replace (Z.pos p + (-52 + e)) with (Z.pos (digits2_pos m) + e) by lia
  end.
  rewrite Hc. replace (e - (-52 + e)) with 52 by lia.
  cbn [shr shr_record_of_loc iter_pos shr_1 orb shr_m loc_of_shr_record
       round_nearest_even Zdigits2].
  replace (-52 + e + 52) with e by lia.
  rewrite Hc, Z.sub_diag. cbn [shr shr_m].
  destruct (Z.leb_spec e (1024 - 53)); [|lia].
  now destruct s.
Qed.

(** After [k] single shifts the record holds the quotient of [m0] by
    [2 ^ k], the bit shifted out last and whether anything was lost
    before it. *)
Lemma shifted_iter (m0 : Z) (k : nat) :
  0 <= m0 ->
  shifted m0 k (Nat.iter k shr_1 {| shr_m := m0; shr_r := false; shr_s := false |}).
Proof.
  intros H0. induction k as [|k IH].
  - change (Nat.iter 0 shr_1 ?x) with x.
    unfold shifted; cbn [shr_m shr_r shr_s].
    change (2 ^ Z.of_nat 0) with 1.
    split; [exact H0|]. exists 0. split; [lia|]. split; [lia|].
    split; [split; [discriminate|lia]|reflexivity].
  - rewrite Nat.iter_succ. destruct (Nat.iter k shr_1 _) as [m r s].
    destruct IH as (Hm & u & Hu & Heq & Hs & Hr). cbn [shr_m shr_r shr_s] in *.
    rewrite shr_1_nonneg by exact Hm. unfold shifted; cbn [shr_m shr_r shr_s].
    rewrite Nat2Z.inj_succ, Z.pow_succ_r by lia.
    set (P := 2 ^ Z.of_nat k) in *.
    assert (HP : 0 < P) by (apply Z.pow_pos_nonneg; lia).
    split; [apply Z.div_pos; lia|].
    exists ((if r then P else 0) + u).
    pose proof (Z.div_mod m 2 ltac:(lia)) as Hdm.
    rewrite Zmod_odd in Hdm.
    split; [destruct r; lia|]. split; [|split].
    + destruct (Z.odd m); nia.
    + destruct r; cbn [orb].
      * split; [intros _; lia|reflexivity].
      * rewrite Hs. split; lia.
    + lia.
Qed.

Lemma round_nearest_even_shifted (m0 : Z) (k : nat) (mrs : shr_record) :
  shifted m0 k mrs ->
  let P := 2 ^ Z.of_nat k in
  let R := round_nearest_even (shr_m mrs) (loc_of_shr_record mrs) in
  0 <= R /\ - P <= 2 * m0 - R * (2 * P) <= P.
Proof.
  intros (Hm & u & Hu & Heq & Hs & Hr) P R. subst R.
  fold P in Hu, Heq.
  destruct mrs as [m r s]; cbn [shr_m shr_r shr_s loc_of_shr_record] in *.
  destruct r, s; cbn [round_nearest_even].
  - split; [lia|]. assert (0 < u) by now apply Hs. nia.
  - assert (u = 0).
    { destruct (Z.eq_dec u 0); [assumption|].
      assert (Hf : false = true) by (apply Hs; lia). discriminate. }
    destruct (Z.even m); split; try lia; nia.
  - assert (0 < u) by now apply Hs. split; [lia|nia].
  - assert (u = 0).
    { destruct (Z.eq_dec u 0); [assumption|].
      assert (Hf : false = true) by (apply Hs; lia). discriminate. }
    split; [lia|nia].
Qed.


Lemma digits2_pos_bounds (p : positive) :
  2 ^ (Zpos (digits2_pos p) - 1) <= Zpos p < 2 ^ Zpos (digits2_pos p).
Proof.
  induction p as [p IH|p IH|]; cbn [digits2_pos]; [| |cbn; lia];
    rewrite Pos2Z.inj_succ;
    replace (Z.succ (Zpos (digits2_pos p)) - 1) with (Z.succ (Zpos (digits2_pos p) - 1)) by lia;
    rewrite !Z.pow_succ_r by lia; lia.
Qed.

Lemma Zdigits2_unique (m a : Z) :
  2 ^ (a - 1) <= m < 2 ^ a -> 0 < m -> Zdigits2 m = a.
Proof.
  intros H Hm. destruct m as [|p|p]; try lia. cbn [Zdigits2].
  pose proof (digits2_pos_bounds p) as Hb.
  set (d := Zpos (digits2_pos p)) in *.
  destruct (Z.lt_trichotomy d a) as [Hlt|[Heq|Hgt]]; [|exact Heq|].
  - assert (2 ^ d <= 2 ^ (a - 1)) by (apply Z.pow_le_mono_r; lia). lia.
  - assert (0 < a).
    { destruct (Z.le_gt_cases a 0) as [Ha|Ha]; [|exact Ha].
      assert (2 ^ a <= 2 ^ 0) by (apply Z.pow_le_mono_r; lia).
      change (2 ^ 0) with 1 in *. lia. }
    assert (2 ^ a <= 2 ^ (d - 1)) by (apply Z.pow_le_mono_r; lia). lia.
Qed.

Lemma pos_iter_xO (p q : positive) :
  Zpos (Pos.iter xO p q) = Zpos p * 2 ^ Zpos q.
Proof.
  induction q as [|q IH] using Pos.peano_ind.
  - cbn. lia.
  - rewrite Pos.iter_succ, Pos2Z.inj_xO, IH, Pos2Z.inj_succ, Z.pow_succ_r by lia. lia.
Qed.

(** [float(n)] is exact below 2^53. *)
Lemma of_int_exact (n : Z) :
  0 < n < 2 ^ 52 ->
  let d := Zdigits2 n in
  exists m, Binary64.of_int n = S754_finite false m (d - 53) /\
            Zpos m = n * 2 ^ (53 - d) /\ 0 < d < 53.
Proof.
  intros Hn d. destruct n as [|p|p]; try lia.
  subst d. cbn [Zdigits2].
  pose proof (digits2_pos_bounds p) as Hb.
  set (d := Zpos (digits2_pos p)) in *.
  assert (Hd : 0 < d < 53).
  { split; [subst d; lia|].
    destruct (Z.lt_ge_cases d 53) as [H|H]; [exact H|].
    assert (2 ^ 52 <= 2 ^ (d - 1)) by (apply Z.pow_le_mono_r; lia). lia. }
  unfold Binary64.of_int, binary_normalize, binary_round.
  fold d. unfold Binary64.prec, Binary64.emax.
  assert (Hf : fexp 53 1024 (d + 0) = d - 53) by (unfold fexp, emin; lia).
  rewrite Hf. unfold shl_align.
  destruct (d - 53 - 0) as [|q|q] eqn:Eq; try lia.
  set (m := Pos.iter xO p q).
  assert (Hm : Zpos m = Zpos p * 2 ^ (53 - d)).
  { subst m. rewrite pos_iter_xO. f_equal. f_equal. lia. }
  assert (Hdm : Zdigits2 (Zpos m) = 53).
  { apply Zdigits2_unique; [|lia]. rewrite Hm.
    replace (2 ^ (53 - 1)) with (2 ^ (d - 1) * 2 ^ (53 - d))
      by (rewrite <- Z.pow_add_r by lia; f_equal; lia).
    replace (2 ^ 53) with (2 ^ d * 2 ^ (53 - d))
      by (rewrite <- Z.pow_add_r by lia; f_equal; lia).
    assert (0 < 2 ^ (53 - d)) by (apply Z.pow_pos_nonneg; lia). nia. }
  exists m. split; [|split; [exact Hm|exact Hd]].
  unfold binary_round_aux, shr_fexp. rewrite Hdm.
  assert (Hf2 : fexp 53 1024 (53 + (d - 53)) = d - 53) by (unfold fexp, emin; lia).
  rewrite Hf2, Z.sub_diag. cbn [shr shr_record_of_loc shr_m loc_of_shr_record round_nearest_even shr_r shr_s].
  rewrite Hdm, Hf2, Z.sub_diag. cbn [shr shr_record_of_loc shr_m].
  destruct (Z.leb_spec (d - 53) (1024 - 53)); [reflexivity|lia].
Qed.

(** Rounding a positive mantissa [M] of more than 53 digits: the result
    is a finite float whose value is [R * 2 ^ e'], with [R] within half a
    unit of [M / 2 ^ sh]. *)
Lemma binary_round_aux_long (M e0 : Z) :
  0 < M ->
  let D := Zdigits2 M in
  let sh := D - 53 in
  let e' := e0 + sh in
  0 < sh -> -1074 <= e' -> e' + 1 <= 971 ->
  exists R m e,
    binary_round_aux 53 1024 false M e0 loc_Exact = S754_finite false m e /\
    e' <= e <= e' + 1 /\ R = Zpos m * 2 ^ (e - e') /\
    - 2 ^ sh <= 2 * M - R * (2 * 2 ^ sh) <= 2 ^ sh.
Proof.
  intros HM D sh e' Hsh Hlo Hhi.
  assert (HD : 2 ^ (D - 1) <= M < 2 ^ D).
  { destruct M as [|p|p]; try lia. apply digits2_pos_bounds. }
  unfold binary_round_aux, shr_fexp. fold D.
  assert (Hf : fexp 53 1024 (D + e0) = D + e0 - 53) by (unfold fexp, emin; lia).
  rewrite Hf. replace (D + e0 - 53 - e0) with sh by (subst sh; lia).
  destruct sh as [|psh|psh] eqn:Esh; try lia.
  cbn [shr shr_record_of_loc]. rewrite iter_pos_nat.
  pose proof (shifted_iter M (Pos.to_nat psh) ltac:(lia)) as Hshift.
  set (mrs := Nat.iter (Pos.to_nat psh) shr_1 _) in *.
  pose proof (round_nearest_even_shifted _ _ _ Hshift) as HR.
  cbv zeta in HR. rewrite positive_nat_Z in HR.
  set (R := round_nearest_even (shr_m mrs) (loc_of_shr_record mrs)) in *.
  set (P := 2 ^ Z.pos psh) in *.
  assert (HS : 0 < P) by (apply Z.pow_pos_nonneg; lia).
  destruct HR as [HR0 HR].
  assert (HDS : 2 ^ D = P * 2 ^ 53).
  { subst P. rewrite <- Z.pow_add_r by lia. f_equal. lia. }
  assert (HDS1 : 2 * 2 ^ (D - 1) = 2 ^ D).
  { rewrite <- Z.pow_succ_r by lia. f_equal. lia. }
  assert (HRb : 2 ^ 52 <= R <= 2 ^ 53).
  { change (2 ^ 53) with 9007199254740992 in *.
    change (2 ^ 52) with 4503599627370496. split; nia. }
  fold e'.
  destruct (Z.eq_dec R (2 ^ 53)) as [HR53|HR53].
  - (* the rounded mantissa reached 2^53: one more shift *)
    exists R, (Z.to_pos (2 ^ 52)), (e' + 1).
    rewrite HR53.
    assert (Hd54 : Zdigits2 (2 ^ 53) = 54) by reflexivity.
    rewrite Hd54.
    assert (Hf2 : fexp 53 1024 (54 + e') = e' + 1) by (unfold fexp, emin; lia).
    rewrite Hf2. replace (e' + 1 - e') with 1 by lia.
    cbn [shr shr_record_of_loc iter_pos].
    change (shr_m (shr_1 {| shr_m := 2 ^ 53; shr_r := false; shr_s := false |}))
      with (Zpos (Z.to_pos (2 ^ 52))).
    cbv iota. destruct (Z.leb_spec (e' + 1) (1024 - 53)); [|lia].
    split; [reflexivity|]. split; [lia|]. split.
    + replace (e' + 1 - e') with 1 by lia. reflexivity.
    + rewrite <- HR53. exact HR.
  - exists R, (Z.to_pos R), e'.
    assert (Hd53 : Zdigits2 R = 53) by (apply Zdigits2_unique; lia).
    rewrite Hd53.
    assert (Hf2 : fexp 53 1024 (53 + e') = e') by (unfold fexp, emin; lia).
    rewrite Hf2, Z.sub_diag. cbn [shr shr_record_of_loc shr_m].
    destruct R as [|pR|pR] eqn:ER; try lia.
    destruct (Z.leb_spec e' (1024 - 53)); [|lia].
    split; [reflexivity|]. split; [lia|]. split.
    + replace (e' - e') with 0 by lia. rewrite Z.pow_0_r. cbn [Z.to_pos]. lia.
    + exact HR.
Qed.

Lemma pow2_le (a b : Z) : 0 <= a <= b -> 2 ^ a <= 2 ^ b.
Proof. intros H. apply Z.pow_le_mono_r; lia. Qed.

Lemma pow2_lt_inv (a b : Z) : 2 ^ a < 2 ^ b -> 0 <= a -> a < b.
Proof.
  intros H Ha. destruct (Z.lt_ge_cases a b) as [|Hge]; [assumption|].
  destruct (Z.lt_ge_cases b 0) as [Hb|Hb].
  - rewrite (Z.pow_neg_r 2 b Hb) in H.
    assert (0 < 2 ^ a) by (apply Z.pow_pos_nonneg; lia). lia.
  - pose proof (pow2_le b a ltac:(lia)). lia.
Qed.

(** In double precision [int(0.99 * n)] is the integer quotient of
    [99 * n] by [100], for every list length below 2^47. *)
Lemma thresh_index_binary64 (n : Z) :
  0 < n < 2 ^ 47 ->
  Binary64.thresh_index n = Some (99 * n / 100).
Proof.
  intros Hn.
  destruct (of_int_exact n ltac:(lia)) as (mN & Hof & HmN & Hd).
  pose proof (Z.div_mod (99 * n) 100 ltac:(lia)) as Hq.
  pose proof (Z.mod_pos_bound (99 * n) 100 ltac:(lia)) as Hr.
  set (q := 99 * n / 100) in *. set (r := (99 * n) mod 100) in *.
  set (d := Zdigits2 n) in *.
  assert (Hnd : 2 ^ (d - 1) <= n < 2 ^ d).
  { subst d. destruct n as [|p|p]; try lia. apply digits2_pos_bounds. }
  assert (Hd47 : d <= 47).
  { assert (d - 1 < 47) by (apply pow2_lt_inv; lia). lia. }
  set (A := 2 ^ (53 - d)) in *.
  assert (HA : 0 < A) by (apply Z.pow_pos_nonneg; lia).
  assert (HAd : 2 ^ d * A = 2 ^ 53).
  { subst A. rewrite <- Z.pow_add_r by lia. f_equal. lia. }
  assert (HAd1 : 2 ^ (d - 1) * A = 2 ^ 52).
  { subst A. rewrite <- Z.pow_add_r by lia. f_equal. lia. }
  set (T := Zpos mN) in *.
  assert (HT : 2 ^ 52 <= T < 2 ^ 53) by (rewrite HmN; nia).
  unfold Binary64.thresh_index, Binary64.mul, Binary64.lit_0_99.
  rewrite Hof. cbn [SFmul xorb]. unfold Binary64.prec, Binary64.emax.
  rewrite Pos2Z.inj_mul. fold T.
  set (M := 8917127262193582 * T).
  assert (HM : 2 ^ 104 <= M < 2 ^ 106).
  { subst M. change (2 ^ 104) with (2 ^ 52 * 2 ^ 52).
    change (2 ^ 106) with (2 ^ 53 * 2 ^ 53).
    change (2 ^ 52) with 4503599627370496 in *.
    change (2 ^ 53) with 9007199254740992 in *. nia. }
  assert (HD : 2 ^ (Zdigits2 M - 1) <= M < 2 ^ Zdigits2 M).
  { destruct M as [|p|p]; try lia. apply digits2_pos_bounds. }
  assert (HD0 : 0 < Zdigits2 M) by (destruct M; try lia; reflexivity).
  assert (HDr : 105 <= Zdigits2 M <= 106).
  { assert (Zdigits2 M - 1 < 106) by (apply pow2_lt_inv; lia).
    assert (104 < Zdigits2 M) by (apply pow2_lt_inv; lia). lia. }
  destruct (binary_round_aux_long M (-53 + (d - 53)) ltac:(lia) ltac:(lia) ltac:(lia) ltac:(lia))
    as (R & m & e & Hres & He & HR & Hnear).
  rewrite Hres. cbn [Binary64.to_int].
  set (D := Zdigits2 M) in *.
  set (e' := -53 + (d - 53) + (D - 53)) in *.
  destruct (Z.leb_spec 0 e); [lia|]. f_equal.
  set (P := 2 ^ (D - 53)) in *.
  set (K := 2 ^ (- e')).
  assert (HS : 2 ^ 52 <= P) by (apply pow2_le; lia).
  assert (HK : 2 ^ 6 <= K) by (apply pow2_le; subst e'; lia).
  assert (HX : A * 2 ^ 53 = P * K).
  { subst A P K. rewrite <- !Z.pow_add_r by lia. f_equal. lia. }
  (* the value does not depend on which of the two forms came out *)
  assert (Hdiv : Zpos m / 2 ^ (- e) = R / K).
  { rewrite HR. subst K.
    replace (- e') with (- e + (e - e')) by lia.
    rewrite Z.pow_add_r by lia.
    rewrite Z.div_mul_cancel_r; [reflexivity| |].
    - apply Z.pow_nonzero; lia.
    - apply Z.pow_nonzero; lia. }
  rewrite Hdiv.
  change (2 ^ 52) with 4503599627370496 in *.
  change (2 ^ 53) with 9007199254740992 in *.
  change (2 ^ 6) with 64 in *.
  assert (H100M : 100 * M = (100 * q + r) * (P * K) - 8 * T).
  { subst M. rewrite <- HX, <- Hq, HmN. fold A. ring. }
  symmetry. apply (Z.div_unique_pos R K q (R - K * q)); [|ring].
  split.
  - (* q * K <= R *)
    assert (P * (q * K - 1) < P * R) by nia. nia.
  - (* R < (q + 1) * K *)
    assert (P * R < P * ((q + 1) * K)) by nia. nia.
Qed.

End Double.

(** ** [score - score_min] in double precision *)

(** A rational rounds to [z] when it is within a half of [z], and on a
    tie when [z] is even. *)
Lemma round_half_even_unique (n : Z) (d : positive) (z : Z) :
  (Z.abs (2 * n - 2 * z * Zpos d) < Zpos d \/
   (Z.abs (2 * n - 2 * z * Zpos d) = Zpos d /\ Z.even z = true))%Z ->
  round_half_even (n # d) = z.
Proof.
  unfold round_half_even; cbn [Qnum Qden].
  pose proof (Z.div_mod n (Zpos d) ltac:(lia)) as Hdm.
  pose proof (Z.mod_pos_bound n (Zpos d) ltac:(lia)) as Hb.
  set (fl := (n / Zpos d)%Z) in *. set (r := (n mod Zpos d)%Z) in *.
  intros H.
  assert (Hz : (z = fl \/ z = fl + 1)%Z) by nia.
  destruct (Z.compare_spec (2 * r) (Zpos d)) as [E|E|E].
  - assert (He : Z.even (fl + 1) = negb (Z.even fl))
      by (rewrite Z.add_1_r, Z.even_succ, <- Z.negb_even; reflexivity).
    destruct H as [H|[H He']]; [nia|].
    destruct Hz as [-> | ->].
    + now rewrite He'.
    + rewrite He in He'. apply negb_true_iff in He'. now rewrite He'.
  - destruct H as [H|[H _]]; nia.
  - destruct H as [H|[H _]]; nia.
Qed.

Lemma round_half_even_spec (n : Z) (d : positive) :
  let z := round_half_even (n # d) in
  (Z.abs (2 * n - 2 * z * Zpos d) < Zpos d \/
   (Z.abs (2 * n - 2 * z * Zpos d) = Zpos d /\ Z.even z = true))%Z.
Proof.
  unfold round_half_even; cbn [Qnum Qden].
  pose proof (Z.div_mod n (Zpos d) ltac:(lia)) as Hdm.
  pose proof (Z.mod_pos_bound n (Zpos d) ltac:(lia)) as Hb.
  set (fl := (n / Zpos d)%Z) in *. set (r := (n mod Zpos d)%Z) in *.
  assert (He : Z.even (fl + 1) = negb (Z.even fl))
    by (rewrite Z.add_1_r, Z.even_succ, <- Z.negb_even; reflexivity).
  destruct (Z.compare_spec (2 * r) (Zpos d)) as [E|E|E].
  - right. destruct (Z.even fl) eqn:Ev.
    + split; [nia|exact Ev].
    + split; [nia|now rewrite He].
  - left. nia.
  - left. nia.
Qed.

(** The rounding depends on the value of the rational only. *)
Lemma round_half_even_Qeq (q q' : Q) :
  q == q' -> round_half_even q = round_half_even q'.
Proof.
  destruct q as [n d], q' as [n' d']. unfold Qeq; cbn [Qnum Qden]. intros E.
  apply round_half_even_unique.
  pose proof (round_half_even_spec n' d') as H. cbv zeta in H.
  set (z := round_half_even (n' # d')) in *.
  destruct H as [H|[H Hev]]; [left|right; split; [|exact Hev]]; nia.
Qed.

Lemma round_half_even_Z (z : Z) : round_half_even (inject_Z z) = z.
Proof. apply round_half_even_unique. left. lia. Qed.

Section Subtraction.

Import Binary64.

Lemma round_nearest_even_half_even (m0 : Z) (k : nat) (mrs : shr_record) :
  shifted m0 k mrs ->
  round_nearest_even (shr_m mrs) (loc_of_shr_record mrs)
  = round_half_even (m0 # Z.to_pos (2 ^ Z.of_nat k)).
Proof.
  intros (Hm & u & Hu & Heq & Hs & Hr).
  symmetry. apply round_half_even_unique.
  assert (HP : (0 < 2 ^ Z.of_nat k)%Z) by (apply Z.pow_pos_nonneg; lia).
  rewrite Z2Pos.id by exact HP.
  set (P := (2 ^ Z.of_nat k)%Z) in *.
  destruct mrs as [m r s]; cbn [shr_m shr_r shr_s loc_of_shr_record] in *.
  assert (Hu0 : s = false -> u = 0%Z).
  { intros ->. destruct (Z.eq_dec u 0); [assumption|].
    assert (Hf : false = true) by (apply Hs; lia). discriminate. }
  assert (Hu1 : s = true -> (0 < u)%Z) by (intros ->; now apply Hs).
  destruct r, s; cbn [round_nearest_even].
  - left. specialize (Hu1 eq_refl). nia.
  - right. specialize (Hu0 eq_refl). subst u.
    assert (He : Z.even (m + 1) = negb (Z.even m))
      by (rewrite Z.add_1_r, Z.even_succ, <- Z.negb_even; reflexivity).
    destruct (Z.even m) eqn:Ev; (split; [nia|]); [exact Ev|now rewrite He].
  - left. specialize (Hu1 eq_refl). nia.
  - left. specialize (Hu0 eq_refl). nia.
Qed.

Lemma pow2_add (a b : Z) : pow2 (a + b) == pow2 a * pow2 b.
Proof. apply Qpower_plus. discriminate. Qed.

Lemma pow2_Z (a : Z) : (0 <= a)%Z -> pow2 a == inject_Z (2 ^ a).
Proof. intros H. symmetry. apply (Zpower_Qpower 2 a H). Qed.

Lemma pow2_lt_mono (a b : Z) : (a < b)%Z -> pow2 a < pow2 b.
Proof. intros H. apply Qpower_lt_compat_l; [exact H|reflexivity]. Qed.

Lemma pow2_le_mono (a b : Z) : (a <= b)%Z -> pow2 a <= pow2 b.
Proof. intros H. apply Qpower_le_compat_l; [exact H|discriminate]. Qed.

Lemma pow2_lt_cancel (a b : Z) : pow2 a < pow2 b -> (a < b)%Z.
Proof. intros H. apply (Qpower_lt_compat_l_inv 2); [exact H|reflexivity]. Qed.

Lemma pow2_cancel (a : Z) : pow2 a * pow2 (- a) == 1.
Proof. rewrite <- pow2_add, Z.add_opp_diag_r. reflexivity. Qed.

(** [last_bit] finds the binade of a positive rational. *)
Lemma last_bit_spec (q : Q) (L : Z) :
  pow2 L <= q -> q < pow2 (L + 1) ->
  last_bit q = Z.max (L - 52) (-1074).
Proof.
  intros Hlo Hhi.
  assert (Hq : 0 < q) by (eapply Qlt_le_trans; [apply pow2_pos|exact Hlo]).
  destruct q as [n d]. unfold last_bit; cbn [Qnum Qden].
  assert (Hn : (0 < n)%Z) by (unfold Qlt in Hq; cbn in Hq; lia).
  pose proof (Z.log2_spec n Hn) as [Hn1 Hn2].
  pose proof (Z.log2_spec (Zpos d) ltac:(lia)) as [Hd1 Hd2].
  pose proof (Z.log2_nonneg n) as Hln. pose proof (Z.log2_nonneg (Zpos d)) as Hld.
  set (ln := Z.log2 n) in *. set (ld := Z.log2 (Zpos d)) in *.
  assert (Hqd : (n # d) * inject_Z (Zpos d) == inject_Z n).
  { unfold Qeq, Qmult, inject_Z; cbn [Qnum Qden]. lia. }
  assert (Hd0 : 0 < inject_Z (Zpos d)) by reflexivity.
  (* the rational lies strictly between 2^(k-1) and 2^(k+1) *)
  assert (Hup : (n # d) < pow2 (ln - ld + 1)).
  { apply Qnot_le_lt. intros Hc.
    assert (Hx : pow2 (ln - ld + 1) * pow2 ld <= (n # d) * inject_Z (Zpos d)).
    { apply Qmult_le_compat_nonneg.
      - split; [apply Qlt_le_weak, pow2_pos|exact Hc].
      - split; [apply Qlt_le_weak, pow2_pos|].
        rewrite pow2_Z by exact Hld. rewrite <- Zle_Qle. exact Hd1. }
    rewrite <- pow2_add, Hqd in Hx.
    replace (ln - ld + 1 + ld)%Z with (Z.succ ln) in Hx by lia.
    rewrite pow2_Z in Hx by lia. rewrite <- Zle_Qle in Hx. lia. }
  assert (Hdn : pow2 (ln - ld - 1) <= (n # d)).
  { apply (Qmult_le_r _ _ (inject_Z (Zpos d)) Hd0). rewrite Hqd.
    apply Qle_trans with (pow2 (ln - ld - 1) * pow2 (ld + 1)).
    - apply Qmult_le_l; [apply pow2_pos|].
      rewrite pow2_Z by lia. rewrite <- Zle_Qle.
      replace (ld + 1)%Z with (Z.succ ld) by lia. lia.
    - rewrite <- pow2_add.
      replace (ln - ld - 1 + (ld + 1))%Z with ln by lia.
      rewrite pow2_Z by lia. rewrite <- Zle_Qle. exact Hn1. }
  assert (H1 : (L < ln - ld + 1)%Z)
    by (apply pow2_lt_cancel; eapply Qle_lt_trans; [exact Hlo|exact Hup]).
  assert (H2 : (ln - ld - 1 < L + 1)%Z)
    by (apply pow2_lt_cancel; eapply Qle_lt_trans; [exact Hdn|exact Hhi]).
  destruct (Qle_bool (pow2 (ln - ld)) (n # d)) eqn:E.
  - apply Qle_bool_iff in E.
    assert (ln - ld < L + 1)%Z
      by (apply pow2_lt_cancel; eapply Qle_lt_trans; [exact E|exact Hhi]).
    f_equal. lia.
  - assert (Hlt : (n # d) < pow2 (ln - ld)).
    { apply Qnot_le_lt. intros Hc. apply Qle_bool_iff in Hc. congruence. }
    assert (L < ln - ld)%Z
      by (apply pow2_lt_cancel; eapply Qle_lt_trans; [exact Hlo|exact Hlt]).
    f_equal. lia.
Qed.

(** [nearest] on a sign and a magnitude in the binade of [2 ^ L]. *)
Lemma nearest_of_value (s : bool) (q : Q) (L : Z) :
  pow2 L <= q -> q < pow2 (L + 1) ->
  let e := Z.max (L - 52) (-1074) in
  let m := round_half_even (q * pow2 (- e)) in
  let v := inject_Z m * pow2 e in
  nearest (Q2Qc (if s then - q else q))
  = if Qle_bool (pow2 1024) v then Infinite s
    else Finite (Q2Qc (if s then - v else v)).
Proof.
  intros Hlo Hhi e m v.
  assert (Hq : 0 < q) by (eapply Qlt_le_trans; [apply pow2_pos|exact Hlo]).
  set (x := Q2Qc (if s then - q else q)).
  assert (Hx : this x == if s then - q else q) by apply Qred_correct.
  assert (Habs : Qabs x == q).
  { rewrite Hx. destruct s; [rewrite Qabs_opp|]; apply Qabs_pos, Qlt_le_weak, Hq. }
  assert (Hsign : (Qnum x <? 0)%Z = s /\ (Qnum x =? 0)%Z = false).
  { assert (Hc : if s then this x < 0 else 0 < this x).
    { destruct s; rewrite Hx; [|exact Hq].
      apply Qopp_lt_compat in Hq. exact Hq. }
    destruct s; unfold Qlt in Hc; cbn [Qnum Qden] in Hc; split.
    - apply Z.ltb_lt. lia.
    - apply Z.eqb_neq. lia.
    - apply Z.ltb_ge. lia.
    - apply Z.eqb_neq. lia. }
  destruct Hsign as [Hsign Hnz].
  unfold nearest. rewrite Hnz, Hsign.
  rewrite (last_bit_spec (Qabs x) L) by (rewrite Habs; assumption).
  fold e.
  rewrite (round_half_even_Qeq (Qabs x * pow2 (- e)) (q * pow2 (- e)))
    by (now rewrite Habs).
  reflexivity.
Qed.

Local Open Scope Z_scope.

(** A mantissa that is canonical at its exponent is left as it is. *)
Lemma binary_round_aux_exact (s : bool) (M : positive) (e : Z) :
  fexp 53 1024 (Zpos (digits2_pos M) + e) = e -> e <= 971 ->
  binary_round_aux 53 1024 s (Zpos M) e loc_Exact = S754_finite s M e.
Proof.
  intros Hf He. unfold binary_round_aux, shr_fexp. cbn [Zdigits2].
  rewrite Hf, Z.sub_diag.
  cbn [shr shr_record_of_loc shr_m loc_of_shr_record round_nearest_even
       shr_r shr_s Zdigits2].
  rewrite Hf, Z.sub_diag. cbn [shr shr_record_of_loc shr_m].
  destruct (Z.leb_spec e (1024 - 53)); [reflexivity|lia].
Qed.

(** A mantissa of more than 53 digits is shifted right, rounded to the
    nearest with ties to even, and shifted once more when the rounding
    carries into a 54th digit; past the largest exponent the result is an
    infinity. *)
Lemma binary_round_aux_shift (s : bool) (M e0 : Z) :
  0 < M ->
  let sh := Zdigits2 M - 53 in
  let e := e0 + sh in
  let R := round_half_even (M # Z.to_pos (2 ^ sh)) in
  0 < sh -> -1074 <= e ->
  2 ^ 52 <= R <= 2 ^ 53 /\
  binary_round_aux 53 1024 s M e0 loc_Exact
  = if R =? 2 ^ 53
    then if e + 1 <=? 971 then S754_finite s (Z.to_pos (2 ^ 52)) (e + 1)
         else S754_infinity s
    else if e <=? 971 then S754_finite s (Z.to_pos R) e
         else S754_infinity s.
Proof.
  intros HM sh e R Hsh Hlo.
  set (D := Zdigits2 M) in *.
  assert (HD : 2 ^ (D - 1) <= M < 2 ^ D).
  { subst D. destruct M as [|p|p]; try lia. apply digits2_pos_bounds. }
  unfold binary_round_aux, shr_fexp. fold D.
  assert (Hf : fexp 53 1024 (D + e0) = D + e0 - 53) by (unfold fexp, emin; lia).
  rewrite Hf. replace (D + e0 - 53 - e0) with sh by (subst sh; lia).
  destruct sh as [|psh|psh] eqn:Esh; try lia.
  cbn [shr shr_record_of_loc]. rewrite iter_pos_nat.
  pose proof (shifted_iter M (Pos.to_nat psh) ltac:(lia)) as Hshift.
  set (mrs := Nat.iter (Pos.to_nat psh) shr_1 _) in *.
  pose proof (round_nearest_even_shifted _ _ _ Hshift) as HR.
  pose proof (round_nearest_even_half_even _ _ _ Hshift) as HRe.
  cbv zeta in HR. rewrite positive_nat_Z in HR, HRe. fold R in HRe.
  rewrite HRe in *.
  set (P := 2 ^ Z.pos psh) in *.
  assert (HS : 0 < P) by (apply Z.pow_pos_nonneg; lia).
  destruct HR as [HR0 HR].
  assert (HDS : 2 ^ D = P * 2 ^ 53).
  { subst P. rewrite <- Z.pow_add_r by lia. f_equal. lia. }
  assert (HDS1 : 2 * 2 ^ (D - 1) = 2 ^ D).
  { rewrite <- Z.pow_succ_r by lia. f_equal. lia. }
  assert (HRb : 2 ^ 52 <= R <= 2 ^ 53).
  { change (2 ^ 53) with 9007199254740992 in *.
    change (2 ^ 52) with 4503599627370496. split; nia. }
  split; [exact HRb|].
  replace (e0 + Z.pos psh) with e by (subst e; lia).
  destruct (Z.eqb_spec R (2 ^ 53)) as [HR53|HR53].
  - rewrite HR53.
    assert (Hd54 : Zdigits2 (2 ^ 53) = 54) by reflexivity.
    rewrite Hd54.
    assert (Hf2 : fexp 53 1024 (54 + e) = e + 1) by (unfold fexp, emin; lia).
    rewrite Hf2. replace (e + 1 - e) with 1 by lia.
    cbn [shr shr_record_of_loc iter_pos].
    change (shr_m (shr_1 {| shr_m := 2 ^ 53; shr_r := false; shr_s := false |}))
      with (Zpos (Z.to_pos (2 ^ 52))).
    cbv iota. reflexivity.
  - assert (Hd53 : Zdigits2 R = 53) by (apply Zdigits2_unique; lia).
    rewrite Hd53.
    assert (Hf2 : fexp 53 1024 (53 + e) = e) by (unfold fexp, emin; lia).
    rewrite Hf2, Z.sub_diag. cbn [shr shr_record_of_loc shr_m].
    destruct R as [|pR|pR] eqn:ER; try lia.
    reflexivity.
Qed.

Lemma pow2_shift (x : Q) (a : Z) (y : Q) :
  (x == y * pow2 a)%Q -> (x * pow2 (- a) == y)%Q.
Proof.
  intros ->. rewrite <- Qmult_assoc, pow2_cancel. apply Qmult_1_r.
Qed.

Lemma Qmake_pow2 (n sh : Z) :
  0 <= sh -> (inject_Z n == (n # Z.to_pos (2 ^ sh)) * pow2 sh)%Q.
Proof.
  intros Hsh. rewrite pow2_Z by exact Hsh.
  assert (0 < 2 ^ sh) by (apply Z.pow_pos_nonneg; lia).
  unfold Qeq, Qmult, inject_Z; cbn [Qnum Qden].
  rewrite Pos.mul_1_r, Z2Pos.id by assumption. lia.
Qed.

(** The rounding of a value that is a double already. *)
Lemma nearest_exact_case (s : bool) (q : Q) (M : positive) (e : Z) :
  (q == inject_Z (Zpos M) * pow2 e)%Q -> (q < pow2 1024)%Q ->
  (if Qle_bool (pow2 1024)
        (inject_Z (round_half_even (q * pow2 (- e))) * pow2 e)
   then Infinite s
   else Finite (Q2Qc (if s
                      then (- (inject_Z (round_half_even (q * pow2 (- e))) * pow2 e))%Q
                      else (inject_Z (round_half_even (q * pow2 (- e))) * pow2 e)%Q)))
  = Finite (Q2Qc (if s then (- (inject_Z (Zpos M) * pow2 e))%Q
                  else (inject_Z (Zpos M) * pow2 e)%Q)).
Proof.
  intros Hq Hlt.
  rewrite (round_half_even_Qeq _ (inject_Z (Zpos M)))
    by (apply pow2_shift, Hq).
  rewrite round_half_even_Z.
  destruct (Qle_bool _ _) eqn:E; [|reflexivity].
  apply Qle_bool_iff in E. rewrite <- Hq in E.
  exfalso. exact (Qlt_not_le _ _ Hlt E).
Qed.

(** [binary_round] gives the double nearest to [M * 2 ^ e0], ties to
    even, or the infinity. *)
Lemma binary_round_nearest (s : bool) (M : positive) (e0 : Z) :
  -1074 <= e0 <= 971 ->
  let q := (inject_Z (Zpos M) * pow2 e0)%Q in
  of_spec (binary_round 53 1024 s M e0)
  = Some (nearest (Q2Qc (if s then (- q)%Q else q))).
Proof.
  intros He0 q.
  pose proof (digits2_pos_bounds M) as HD.
  set (D := Zpos (digits2_pos M)) in *.
  assert (HD0 : 0 < D) by (subst D; lia).
  assert (Hlo : (pow2 (D + e0 - 1) <= q)%Q).
  { subst q. replace (D + e0 - 1) with ((D - 1) + e0) by lia.
    rewrite pow2_add. apply Qmult_le_compat_r; [|apply Qlt_le_weak, pow2_pos].
    rewrite pow2_Z by lia. rewrite <- Zle_Qle. apply HD. }
  assert (Hhi : (q < pow2 (D + e0 - 1 + 1))%Q).
  { subst q. replace (D + e0 - 1 + 1) with (D + e0) by lia.
    rewrite pow2_add. apply Qmult_lt_compat_r; [apply pow2_pos|].
    rewrite pow2_Z by lia. rewrite <- Zlt_Qlt. apply HD. }
  rewrite (nearest_of_value s q (D + e0 - 1) Hlo Hhi).
  set (e := Z.max (D + e0 - 1 - 52) (-1074)).
  assert (Hf : fexp 53 1024 (D + e0) = e) by (unfold fexp, emin; subst e; lia).
  replace (D + e0 - 1 + 1) with (D + e0) in Hhi by lia.
  unfold binary_round. fold D. rewrite Hf. unfold shl_align.
  destruct (e - e0) as [|k|k] eqn:Ek.
  - (* the mantissa is canonical as it stands *)
    assert (Heq : e = e0) by lia.
    rewrite binary_round_aux_exact by (fold D; lia).
    cbn [of_spec]. f_equal. symmetry. rewrite Heq.
    apply nearest_exact_case; [reflexivity|].
    eapply Qlt_le_trans; [exact Hhi|]. apply pow2_le_mono. lia.
  - (* more than 53 digits: shifted right and rounded *)
    assert (Hesh : e = e0 + (D - 53)) by lia.
    destruct (binary_round_aux_shift s (Zpos M) e0 ltac:(lia)) as [HRb Hres];
      cbn [Zdigits2]; fold D; try lia.
    cbn [Zdigits2] in HRb, Hres. fold D in HRb, Hres.
    rewrite Hres. clear Hres. rewrite <- Hesh.
    set (R := round_half_even (Zpos M # Z.to_pos (2 ^ (D - 53)))) in *.
    assert (Hm : round_half_even (q * pow2 (- e)) = R).
    { apply round_half_even_Qeq. apply pow2_shift. subst q.
      rewrite Hesh, pow2_add.
      transitivity ((Zpos M # Z.to_pos (2 ^ (D - 53))) * pow2 (D - 53) * pow2 e0)%Q;
        [|ring].
      apply Qmult_comp; [apply Qmake_pow2; lia|reflexivity]. }
    rewrite Hm.
    assert (HRq : (pow2 (52 + e) <= inject_Z R * pow2 e)%Q).
    { rewrite pow2_add. apply Qmult_le_compat_r; [|apply Qlt_le_weak, pow2_pos].
      rewrite (pow2_Z 52) by lia. rewrite <- Zle_Qle. apply HRb. }
    destruct (Z.eqb_spec R (2 ^ 53)) as [HR53|HR53].
    + assert (Hv : (inject_Z R * pow2 e == pow2 (53 + e))%Q).
      { rewrite HR53, pow2_add, (pow2_Z 53) by lia. reflexivity. }
      destruct (Z.leb_spec (e + 1) 971) as [Hle|Hgt].
      * assert (E : Qle_bool (pow2 1024) (inject_Z R * pow2 e) = false).
        { destruct (Qle_bool _ _) eqn:E; [|reflexivity].
          apply Qle_bool_iff in E. rewrite Hv in E.
          exfalso. apply (Qlt_not_le _ _ (pow2_lt_mono (53 + e) 1024 ltac:(lia))), E. }
        rewrite E. cbn [of_spec]. do 2 f_equal. apply Q2Qc_eq_iff.
        assert (Hv2 : (inject_Z (Zpos (Z.to_pos (2 ^ 52))) * pow2 (e + 1)
                       == inject_Z R * pow2 e)%Q).
        { rewrite Hv. replace (53 + e) with (52 + (e + 1)) by lia.
          rewrite (pow2_add 52), (pow2_Z 52) by lia. reflexivity. }
        destruct s; now rewrite Hv2.
      * assert (E : Qle_bool (pow2 1024) (inject_Z R * pow2 e) = true).
        { apply Qle_bool_iff. rewrite Hv. apply pow2_le_mono. lia. }
        rewrite E. reflexivity.
    + assert (HRq2 : (inject_Z R * pow2 e < pow2 (53 + e))%Q).
      { rewrite pow2_add. apply Qmult_lt_compat_r; [apply pow2_pos|].
        rewrite (pow2_Z 53) by lia. rewrite <- Zlt_Qlt. lia. }
      destruct (Z.leb_spec e 971) as [Hle|Hgt].
      * assert (E : Qle_bool (pow2 1024) (inject_Z R * pow2 e) = false).
        { destruct (Qle_bool _ _) eqn:E; [|reflexivity].
          apply Qle_bool_iff in E. exfalso.
          apply (Qlt_not_le _ _ HRq2). eapply Qle_trans; [|exact E].
          apply pow2_le_mono. lia. }
        rewrite E. cbn [of_spec]. rewrite Z2Pos.id by lia. reflexivity.
      * assert (E : Qle_bool (pow2 1024) (inject_Z R * pow2 e) = true).
        { apply Qle_bool_iff. eapply Qle_trans; [|exact HRq].
          apply pow2_le_mono. lia. }
        rewrite E. reflexivity.
  - (* fewer digits than the exponent allows: shifted left *)
    cbn [fst snd].
    assert (HM' : Zpos (Pos.iter xO M k) = Zpos M * 2 ^ Zpos k) by apply pos_iter_xO.
    set (M' := Pos.iter xO M k) in *.
    assert (Hk : 0 < 2 ^ Zpos k) by (apply Z.pow_pos_nonneg; lia).
    assert (HD' : Zpos (digits2_pos M') = D + Zpos k).
    { change (Zpos (digits2_pos M')) with (Zdigits2 (Zpos M')).
      apply Zdigits2_unique; [|lia]. rewrite HM'.
      replace (D + Zpos k - 1) with ((D - 1) + Zpos k) by lia.
      rewrite !Z.pow_add_r by lia. nia. }
    assert (Hex : fexp 53 1024 (Zpos (digits2_pos M') + e) = e).
    { rewrite HD'. replace (D + Zpos k + e) with (D + e0) by lia. exact Hf. }
    rewrite (binary_round_aux_exact s M' e Hex) by lia.
    cbn [of_spec]. f_equal. symmetry.
    apply nearest_exact_case.
    + subst q. rewrite HM', inject_Z_mult, <- pow2_Z by lia.
      rewrite <- Qmult_assoc, <- pow2_add.
      replace (Zpos k + e) with e0 by lia. reflexivity.
    + eapply Qlt_le_trans; [exact Hhi|]. apply pow2_le_mono. lia.
Qed.

(** A double is its own nearest double. *)
Lemma nearest_double (s : bool) (m : positive) (e : Z) :
  bounded 53 1024 m e = true ->
  let v := (inject_Z (Zpos m) * pow2 e)%Q in
  nearest (Q2Qc (if s then (- v)%Q else v))
  = Finite (Q2Qc (if s then (- v)%Q else v)).
Proof.
  intros Hb v. unfold bounded, canonical_mantissa in Hb.
  apply andb_true_iff in Hb as [Hc He].
  apply Z.eqb_eq in Hc. apply Z.leb_le in He.
  assert (Hlo : -1074 <= e) by (unfold fexp, emin in Hc; lia).
  pose proof (binary_round_nearest s m e ltac:(lia)) as H. cbv zeta in H.
  unfold binary_round, shl_align in H. rewrite Hc, Z.sub_diag in H.
  rewrite (binary_round_aux_exact s m e Hc) in H by lia.
  cbn [of_spec] in H. injection H as H. symmetry. exact H.
Qed.

Lemma bounded_exponent (m : positive) (e : Z) :
  bounded 53 1024 m e = true -> -1074 <= e <= 971.
Proof.
  unfold bounded, canonical_mantissa. intros Hb.
  apply andb_true_iff in Hb as [Hc He].
  apply Z.eqb_eq in Hc. apply Z.leb_le in He.
  unfold fexp, emin in Hc. lia.
Qed.

(** Aligning a mantissa to a lower exponent keeps the value. *)
Lemma shl_align_value (m : positive) (e ez : Z) :
  ez <= e ->
  (inject_Z (Zpos (fst (shl_align m e ez))) * pow2 ez
   == inject_Z (Zpos m) * pow2 e)%Q.
Proof.
  intros Hle. unfold shl_align.
  destruct (ez - e) as [|k|k] eqn:Ek; cbn [fst]; try lia.
  - replace ez with e by lia. reflexivity.
  - rewrite pos_iter_xO, inject_Z_mult, <- (pow2_Z (Zpos k)) by lia.
    rewrite <- Qmult_assoc, <- pow2_add.
    replace (Zpos k + ez) with e by lia. reflexivity.
Qed.

Lemma value_finite (s : bool) (m : positive) (e : Z) :
  value (S754_finite s m e)
  = Q2Qc (if s then (- (inject_Z (Zpos m) * pow2 e))%Q
          else (inject_Z (Zpos m) * pow2 e)%Q).
Proof. reflexivity. Qed.

Lemma Qc_of_Qeq (x : Qc) (q : Q) : (this x == q)%Q -> x = Q2Qc q.
Proof.
  intros H. apply Qc_is_canon. cbn [this Q2Qc]. now rewrite Qred_correct.
Qed.

(** X11: [sub], which gives the [score] attribute its difference, is the
    subtraction of [SpecFloat] on finite doubles: the same finite value,
    or the same infinity. *)
Theorem sub_is_SFsub (x y : spec_float) :
  valid_binary 53 1024 x = true -> valid_binary 53 1024 y = true ->
  finite x = true -> finite y = true ->
  of_spec (SFsub 53 1024 x y) = Some (sub (value x) (value y)).
Proof.
  intros Hx Hy Fx Fy.
  destruct x as [sx|sx| |sx mx ex]; try discriminate;
    destruct y as [sy|sy| |sy my ey]; try discriminate;
    cbn [valid_binary] in Hx, Hy.
  - (* both zero *)
    assert (E : sub (value (S754_zero sx)) (value (S754_zero sy))
                = Finite (Q2Qc 0)).
    { unfold sub, nearest. cbn. f_equal. }
    rewrite E. now destruct sx, sy.
  - (* 0 - y *)
    cbn [SFsub]. unfold sub. rewrite value_finite.
    set (v := (inject_Z (Zpos my) * pow2 ey)%Q).
    assert (E : (value (S754_zero sx) - Q2Qc (if sy then (- v)%Q else v))%Qc
                = Q2Qc (if negb sy then (- v)%Q else v)).
    { apply Qc_of_Qeq. unfold Qcminus, Qcplus, Qcopp. cbn [this Q2Qc value of_spec].
      rewrite !Qred_correct. destruct sy; cbn [negb]; ring. }
    rewrite E. subst v. rewrite (nearest_double _ _ _ Hy). reflexivity.
  - (* x - 0 *)
    cbn [SFsub]. unfold sub. rewrite value_finite.
    set (v := (inject_Z (Zpos mx) * pow2 ex)%Q).
    assert (E : (Q2Qc (if sx then (- v)%Q else v) - value (S754_zero sy))%Qc
                = Q2Qc (if sx then (- v)%Q else v)).
    { apply Qc_of_Qeq. unfold Qcminus, Qcplus, Qcopp. cbn [this Q2Qc value of_spec].
      rewrite !Qred_correct. destruct sx; ring. }
    rewrite E. subst v. rewrite (nearest_double _ _ _ Hx). reflexivity.
  - (* two finite doubles *)
    pose proof (bounded_exponent _ _ Hx) as Hex.
    pose proof (bounded_exponent _ _ Hy) as Hey.
    cbn [SFsub]. set (ez := Z.min ex ey).
    pose proof (shl_align_value mx ex ez ltac:(lia)) as Hvx.
    pose proof (shl_align_value my ey ez ltac:(lia)) as Hvy.
    set (Mx := Zpos (fst (shl_align mx ex ez))) in *.
    set (My := Zpos (fst (shl_align my ey ez))) in *.
    set (Mz := cond_Zopp sx Mx - cond_Zopp sy My).
    assert (E : (value (S754_finite sx mx ex) - value (S754_finite sy my ey))%Qc
                = Q2Qc (inject_Z Mz * pow2 ez)).
    { apply Qc_of_Qeq. rewrite !value_finite.
      unfold Qcminus, Qcplus, Qcopp. cbn [this Q2Qc].
      rewrite !Qred_correct. subst Mz.
      unfold Z.sub. rewrite inject_Z_plus, inject_Z_opp.
      assert (Hsx : ((if sx then - (inject_Z (Zpos mx) * pow2 ex)
                      else inject_Z (Zpos mx) * pow2 ex)
                     == inject_Z (cond_Zopp sx Mx) * pow2 ez)%Q).
      { destruct sx; cbn [cond_Zopp]; rewrite <- Hvx;
          [rewrite inject_Z_opp; ring|reflexivity]. }
      assert (Hsy : ((if sy then - (inject_Z (Zpos my) * pow2 ey)
                      else inject_Z (Zpos my) * pow2 ey)
                     == inject_Z (cond_Zopp sy My) * pow2 ez)%Q).
      { destruct sy; cbn [cond_Zopp]; rewrite <- Hvy;
          [rewrite inject_Z_opp; ring|reflexivity]. }
      rewrite Hsx, Hsy. ring. }
    assert (Hez : -1074 <= ez <= 971) by lia.
    unfold sub. rewrite E. unfold binary_normalize.
    destruct Mz as [|p|p].
    + cbn [of_spec]. f_equal.
      replace (Q2Qc (inject_Z 0 * pow2 ez)) with (Q2Qc 0)
        by (apply Q2Qc_eq_iff; ring).
      reflexivity.
    + exact (binary_round_nearest false p ez Hez).
    + replace (Q2Qc (inject_Z (Zneg p) * pow2 ez))
        with (Q2Qc (- (inject_Z (Zpos p) * pow2 ez)))
        by (apply Q2Qc_eq_iff;
            change (inject_Z (Zneg p)) with (- inject_Z (Zpos p))%Q; ring).
      exact (binary_round_nearest true p ez Hez).
Qed.

End Subtraction.

(** ** The threshold estimator *)

Lemma thresh_index_bounds (n : nat) :
  (1 <= n)%nat ->
  (0 <= 99 * Z.of_nat n / 100 < Z.of_nat n)%Z.
Proof.
  intros H. split.
  - apply Z.div_pos; lia.
  - apply Z.div_lt_upper_bound; lia.
Qed.

Lemma thresh_index_nat (n : nat) :
  Z.to_nat (99 * Z.of_nat n / 100) = (99 * n / 100)%nat.
Proof.
  replace (99 * Z.of_nat n)%Z with (Z.of_nat (99 * n)) by lia.
  change 100%Z with (Z.of_nat 100).
  rewrite <- Nat2Z.inj_div. apply Nat2Z.id.
Qed.

Lemma ascending_head_least (x : float) (l : list float) :
  StronglySorted Qcle (x :: l) -> Forall (fun s => (x <= s)%Qc) (x :: l).
Proof.
  intros H. inversion H; subst. constructor; [apply Qcle_refl|assumption].
Qed.

(** What [determine_threshold] returns on a list that is not empty. *)
Lemma determine_threshold_ok (scores : list float) :
  scores <> [] ->
  exists score_cut score_min,
    determine_threshold scores = Ok (score_cut, score_min) /\
    nth_error (sorted scores) (99 * List.length scores / 100) = Some score_cut /\
    nth_error (sorted scores) 0 = Some score_min.
Proof.
  intros Hne. unfold determine_threshold.
  assert (Hlen : (1 <= List.length scores)%nat)
    by (destruct scores; [congruence|simpl; lia]).
  rewrite thresh_index_floor, sorted_length.
  destruct (getitem_in_range (sorted scores) (99 * Z.of_nat (List.length scores) / 100))
    as (cut & Hcut & Hnth).
  { rewrite sorted_length. now apply thresh_index_bounds. }
  destruct (getitem_in_range (sorted scores) 0) as (mn & Hmn & Hnth0).
  { rewrite sorted_length. lia. }
  exists cut, mn. rewrite Hcut, Hmn. simpl.
  rewrite thresh_index_nat in Hnth. auto.
Qed.

Lemma determine_threshold_nil : determine_threshold [] = Raise IndexError.
Proof. reflexivity. Qed.

Lemma sorted_head_least (scores : list float) (score_min : float) :
  nth_error (sorted scores) 0 = Some score_min ->
  In score_min scores /\ Forall (fun s => (score_min <= s)%Qc) scores.
Proof.
  intros Hmn.
  pose proof (sorted_perm scores) as HP.
  pose proof (sorted_ascending scores) as HS.
  split.
  - eapply Permutation_in; [symmetry; exact HP|].
    eapply nth_error_In; exact Hmn.
  - eapply Permutation_Forall; [symmetry; exact HP|].
    destruct (sorted scores) as [|x l]; [discriminate|].
    injection Hmn as <-. now apply ascending_head_least.
Qed.

Lemma determine_threshold_inv (scores : list float) (score_cut score_min : float) :
  determine_threshold scores = Ok (score_cut, score_min) ->
  scores <> [] /\
  nth_error (sorted scores) (99 * List.length scores / 100) = Some score_cut /\
  In score_min scores /\
  Forall (fun s => (score_min <= s)%Qc) scores.
Proof.
  intros H.
  assert (Hne : scores <> []).
  { intros ->. rewrite determine_threshold_nil in H. discriminate. }
  destruct (determine_threshold_ok scores Hne) as (cut & mn & Hd & Hcut & Hmn).
  rewrite H in Hd. injection Hd as -> ->.
  split; [exact Hne|]. split; [exact Hcut|].
  now apply sorted_head_least.
Qed.

(** C2: on every non-empty score list the estimator succeeds; [score_cut]
    is the element at index [floor(0.99 * N)] of the scores in ascending
    order, taken as it stands, and [score_min] is the least score.  That
    index is also what [int(0.99 * N)] gives in double precision, for
    every [N] below 2^47. *)
Theorem threshold_is_rank_99_and_minimum (scores : list float) :
  scores <> [] ->
  let N := List.length scores in
  exists score_cut score_min ascending,
    determine_threshold scores = Ok (score_cut, score_min) /\
    Permutation scores ascending /\
    StronglySorted Qcle ascending /\
    nth_error ascending (99 * N / 100) = Some score_cut /\
    In score_min scores /\
    Forall (fun s => (score_min <= s)%Qc) scores /\
    ((Z.of_nat N < 2 ^ 47)%Z ->
     Binary64.thresh_index (Z.of_nat N) = Some (Z.of_nat (99 * N / 100))).
Proof.
  intros Hne N.
  destruct (determine_threshold_ok scores Hne) as (cut & mn & Hd & Hcut & Hmn).
  exists cut, mn, (sorted scores).
  destruct (sorted_head_least _ _ Hmn) as [Hin Hall].
  repeat split; try assumption.
  - apply sorted_perm.
  - apply sorted_ascending.
  - intros HN. rewrite thresh_index_binary64.
    + now rewrite <- thresh_index_nat, Z2Nat.id by (apply Z.div_pos; lia).
    + split; [|exact HN]. subst N.
      destruct scores; [congruence|]. cbn [List.length]. lia.
Qed.

(** C10: for a score list of length [N >= 1] the index [int(0.99 * N)]
    lies between [0] and [N - 1], and the lookup in the sorted list
    returns an element.  The double-precision product gives the same
    index for every [N] below 2^47. *)
Theorem threshold_index_in_range (scores : list float) :
  (1 <= List.length scores)%nat ->
  let N := Z.of_nat (List.length scores) in
  let index := int (Q2Qc (99 # 100) * float_of_Z N)%Qc in
  (0 <= index <= N - 1)%Z /\
  (exists s, getitem (sorted scores) index = Ok s) /\
  ((N < 2 ^ 47)%Z -> Binary64.thresh_index N = Some index).
Proof.
  intros Hlen N index. subst N index.
  rewrite thresh_index_floor.
  pose proof (thresh_index_bounds _ Hlen) as Hb.
  split; [lia|]. split.
  - destruct (getitem_in_range (sorted scores)
                (99 * Z.of_nat (List.length scores) / 100))
      as (s & Hs & _).
    { now rewrite sorted_length. }
    now exists s.
  - intros HN. apply thresh_index_binary64. lia.
Qed.

(** ** The results dictionary *)

Lemma dict_get_append (key k : string) (v : string * float) (d : results_dict) :
  dict_get key (dict_append k v d)
  = if String.eqb k key then dict_get key d ++ [v] else dict_get key d.
Proof.
  induction d as [|[k0 items] d IH]; simpl.
  - rewrite (String.eqb_sym k key). now destruct (String.eqb key k).
  - destruct (String.eqb k0 k) eqn:E0; simpl.
    + apply String.eqb_eq in E0. subst k0.
      now destruct (String.eqb k key).
    + destruct (String.eqb k0 key) eqn:E1; [|exact IH].
      apply String.eqb_eq in E1. subst k0.
      rewrite String.eqb_sym in E0. now rewrite E0.
Qed.

Lemma dict_keys_append (key k : string) (v : string * float) (d : results_dict) :
  In key (dict_keys (dict_append k v d)) <-> key = k \/ In key (dict_keys d).
Proof.
  unfold dict_keys. induction d as [|[k0 items] d IH]; simpl.
  - intuition congruence.
  - destruct (String.eqb k0 k) eqn:E0; simpl.
    + apply String.eqb_eq in E0. subst k0. intuition congruence.
    + rewrite IH. intuition congruence.
Qed.

Lemma dict_items_append (k : string) (v : string * float) (d : results_dict) :
  Permutation (dict_items (dict_append k v d)) ((k, v) :: dict_items d).
Proof.
  unfold dict_items. induction d as [|[k0 items] d IH]; simpl; [reflexivity|].
  destruct (String.eqb k0 k) eqn:E0; simpl.
  - apply String.eqb_eq in E0. subst k0.
    rewrite map_app; simpl. rewrite <- app_assoc; simpl.
    symmetry. apply Permutation_middle.
  - rewrite IH. symmetry. apply Permutation_middle.
Qed.

Lemma Permutation_filter {A : Type} (p : A -> bool) (l1 l2 : list A) :
  Permutation l1 l2 -> Permutation (filter p l1) (filter p l2).
Proof.
  induction 1 as [|x l1 l2 _ IH|x y l|l1 l2 l3 _ IH1 _ IH2]; simpl.
  - constructor.
  - destruct (p x); [now constructor|exact IH].
  - destruct (p x), (p y); try reflexivity. apply perm_swap.
  - now transitivity (filter p l2).
Qed.

Lemma Qcopp_lt_iff (p q : Qc) : (p < q <-> - q < - p)%Qc.
Proof.
  split; intros H; apply Qcnot_le_lt; intros Hle; apply Qcopp_le_compat in Hle.
  - rewrite !Qcopp_involutive in Hle. now apply Qclt_not_le in H.
  - now apply Qclt_not_le in H.
Qed.

Section Properties.

Context {feature : Type}.
Variable segmental_dtw : feature -> feature -> float.

Implicit Types (f : future feature) (order : list (future feature)).

(** ** [match] *)

Lemma minus_one_mult (c : float) : (float_of_Z (-1) * c = - c)%Qc.
Proof.
  replace (float_of_Z (-1)) with (- (1))%Qc by (apply Qc_is_canon; reflexivity).
  ring.
Qed.

Lemma future_result_eq f :
  future_result segmental_dtw f
  = (fut_query_name f, fut_doc_name f, future_score segmental_dtw f).
Proof. reflexivity. Qed.

Lemma future_score_eq f :
  future_score segmental_dtw f
  = (- segmental_dtw (fut_query f) (fut_doc f))%Qc.
Proof. unfold future_score; simpl. apply minus_one_mult. Qed.

(** ** The collection loop *)

Lemma collect_from_scores order (d : results_dict) (sc : list float) :
  snd (fold_left (collect_step segmental_dtw) order (d, sc))
  = sc ++ map (future_score segmental_dtw) order.
Proof.
  revert d sc. induction order as [|f order IH]; intros d sc; simpl.
  - now rewrite app_nil_r.
  - rewrite IH, <- app_assoc. reflexivity.
Qed.

Lemma collect_from_get (key : string) order
    (d : results_dict) (sc : list float) :
  dict_get key (fst (fold_left (collect_step segmental_dtw) order (d, sc)))
  = dict_get key d
    ++ map (item_of segmental_dtw)
         (filter (fun f => String.eqb (fut_query_name f) key) order).
Proof.
  revert d sc. induction order as [|f order IH]; intros d sc; simpl.
  - now rewrite app_nil_r.
  - rewrite IH, dict_get_append.
    destruct (String.eqb (fut_query_name f) key); simpl; [|reflexivity].
    now rewrite <- app_assoc.
Qed.

Lemma collect_from_keys (key : string) order
    (d : results_dict) (sc : list float) :
  In key (dict_keys (fst (fold_left (collect_step segmental_dtw) order (d, sc))))
  <-> In key (dict_keys d) \/ exists f, In f order /\ fut_query_name f = key.
Proof.
  revert d sc. induction order as [|f order IH]; intros d sc; simpl.
  - split; [auto|]. intros [H|(f & [] & _)]; exact H.
  - rewrite IH, dict_keys_append. split.
    + intros [[->|H]|(g & Hg & <-)]; eauto.
    + intros [H|(g & [<-|Hg] & <-)]; eauto.
Qed.

Lemma collect_from_items order (d : results_dict) (sc : list float) :
  Permutation
    (dict_items (fst (fold_left (collect_step segmental_dtw) order (d, sc))))
    (dict_items d
     ++ map (fun f => (fut_query_name f, item_of segmental_dtw f)) order).
Proof.
  revert d sc. induction order as [|f order IH]; intros d sc; simpl.
  - now rewrite app_nil_r.
  - rewrite IH, dict_items_append. simpl. apply Permutation_middle.
Qed.

(** ** The dispatcher *)

Lemma submit_all_prod (queries : list feature) (query_names : list string)
    (docs : list feature) (doc_names : list string) :
  submit_all queries query_names docs doc_names
  = map (fun p => task_of (fst p) (snd p))
        (list_prod (combine queries query_names) (combine docs doc_names)).
Proof.
  unfold submit_all.
  match goal with |- flat_map ?F _ = _ => set (body := F) end.
  induction (combine queries query_names) as [|[q qn] Q IH];
    cbn [flat_map list_prod]; [reflexivity|].
  rewrite map_app, map_map, IH. f_equal.
  subst body. apply map_ext. now intros [d dn].
Qed.

Lemma collect_get (key : string) order :
  dict_get key (fst (collect segmental_dtw order))
  = map (item_of segmental_dtw)
        (filter (fun f => String.eqb (fut_query_name f) key) order).
Proof. unfold collect. now rewrite collect_from_get. Qed.

Lemma collect_keys (key : string) order :
  In key (dict_keys (fst (collect segmental_dtw order)))
  <-> exists f, In f order /\ fut_query_name f = key.
Proof.
  unfold collect. rewrite collect_from_keys. simpl. intuition.
Qed.

Lemma collect_scores order :
  snd (collect segmental_dtw order) = map (future_score segmental_dtw) order.
Proof. unfold collect. now rewrite collect_from_scores. Qed.

Lemma collect_items order :
  Permutation (dict_items (fst (collect segmental_dtw order)))
              (map (fun f => (fut_query_name f, item_of segmental_dtw f)) order).
Proof. unfold collect. now rewrite collect_from_items. Qed.

Variable as_completed : list (future feature) -> list (future feature).

Lemma as_completed_nil :
  yields_each_once as_completed -> as_completed [] = [].
Proof. intros H. apply Permutation_nil, H. Qed.

Lemma dispatch_ok (W : Z) (queries : list feature) (query_names : list string)
    (docs : list feature) (doc_names : list string) :
  (1 <= W)%Z ->
  dispatch segmental_dtw as_completed W queries query_names docs doc_names
  = Ok (collect segmental_dtw
          (as_completed (submit_all queries query_names docs doc_names))).
Proof.
  intros HW. unfold dispatch, ProcessPoolExecutor.
  destruct (Z.leb_spec W 0); [lia|reflexivity].
Qed.

Lemma dispatch_inv (W : Z) (queries : list feature) (query_names : list string)
    (docs : list feature) (doc_names : list string) res :
  dispatch segmental_dtw as_completed W queries query_names docs doc_names
  = Ok res ->
  res = collect segmental_dtw
          (as_completed (submit_all queries query_names docs doc_names)).
Proof.
  unfold dispatch, ProcessPoolExecutor.
  destruct (W <=? 0)%Z; simpl; congruence.
Qed.

(** C5: the score [match] returns is the negated cost of [segmental_dtw],
    so that a lower cost gives a higher score.  In double precision too
    [-1 * cost] is the cost with its sign flipped, for every double. *)
Theorem match_score_is_negated_cost (query doc : feature) (query_name doc_name : string) :
  match_ segmental_dtw query doc query_name doc_name
  = (query_name, doc_name, (- segmental_dtw query doc)%Qc)
  /\ (forall (query' doc' : feature) (query_name' doc_name' : string),
      (segmental_dtw query doc < segmental_dtw query' doc')%Qc
      <-> (snd (match_ segmental_dtw query' doc' query_name' doc_name')
           < snd (match_ segmental_dtw query doc query_name doc_name))%Qc)
  /\ (forall cost : spec_float,
      valid_binary Binary64.prec Binary64.emax cost = true ->
      Binary64.mul (Binary64.of_int (-1)) cost = SFopp cost).
Proof.
  unfold match_; simpl. rewrite minus_one_mult. split; [reflexivity|]. split.
  - intros q' d' _ _. rewrite minus_one_mult. apply Qcopp_lt_iff.
  - exact minus_one_mul_exact.
Qed.

(** C4: with a pool of at least one worker the dispatcher submits one
    call per (query, document) pair and collects each result once: the
    collected results are, up to order, the results of [match] over the
    cross product, [|queries| * |documents|] of them, and they are what
    ends up in [scores] and in [results]. *)
Theorem dispatch_covers_cross_product (W : Z)
    (queries : list feature) (query_names : list string)
    (docs : list feature) (doc_names : list string) :
  yields_each_once as_completed ->
  (1 <= W)%Z ->
  let Q := combine queries query_names in
  let D := combine docs doc_names in
  let futures := submit_all queries query_names docs doc_names in
  let collected := map (future_result segmental_dtw) (as_completed futures) in
  List.length futures = (List.length Q * List.length D)%nat /\
  List.length collected = (List.length Q * List.length D)%nat /\
  Permutation collected
    (map (fun p => match_ segmental_dtw (fst (fst p)) (fst (snd p))
                     (replace ".wav" EmptyString (snd (fst p)))
                     (replace ".wav" EmptyString (snd (snd p))))
         (list_prod Q D)) /\
  exists results,
    dispatch segmental_dtw as_completed W queries query_names docs doc_names
    = Ok (results, map snd collected) /\
    Permutation (dict_items results)
      (map (fun r => (fst (fst r), (snd (fst r), snd r))) collected).
Proof.
  intros Hperm HW Q D futures collected.
  assert (Hlen : List.length futures = (List.length Q * List.length D)%nat).
  { subst futures. now rewrite submit_all_prod, length_map, length_prod. }
  split; [exact Hlen|]. split; [|split].
  - subst collected. rewrite length_map, <- Hlen.
    symmetry. apply Permutation_length, Hperm.
  - subst collected. rewrite <- (Hperm futures).
    subst futures. rewrite submit_all_prod, map_map. reflexivity.
  - exists (fst (collect segmental_dtw (as_completed futures))). split.
    + rewrite dispatch_ok by exact HW. fold futures.
      rewrite (surjective_pairing (collect _ _)) at 1.
      rewrite collect_scores. subst collected. now rewrite map_map.
    + rewrite collect_items. subst collected. now rewrite map_map.
Qed.

(** C6: with no query or no document nothing is submitted, and the
    dispatcher returns an empty result set and no scores without
    raising. *)
Theorem dispatch_of_nothing (W : Z)
    (queries : list feature) (query_names : list string)
    (docs : list feature) (doc_names : list string) :
  yields_each_once as_completed ->
  (1 <= W)%Z ->
  queries = [] \/ docs = [] ->
  submit_all queries query_names docs doc_names = [] /\
  dispatch segmental_dtw as_completed W queries query_names docs doc_names
  = Ok ([], []).
Proof.
  intros Hperm HW Hempty.
  assert (Hnone : submit_all queries query_names docs doc_names = []).
  { rewrite submit_all_prod.
    destruct Hempty as [-> | ->]; simpl; [reflexivity|].
    induction (combine queries query_names); simpl; auto. }
  split; [exact Hnone|].
  rewrite dispatch_ok by exact HW.
  now rewrite Hnone, (as_completed_nil Hperm).
Qed.

(** ** The report *)

Lemma for_each_accepting {A B : Type} (p : A -> bool) (g : A -> B)
    (f : A -> result B) (e : exn) (l : list A) :
  (forall a, f a = if p a then Ok (g a) else Raise e) ->
  for_each f l = if forallb p l then Ok (map g l) else Raise e.
Proof.
  intros Hf. induction l as [|a l IH]; [reflexivity|].
  cbn [for_each forallb map]. rewrite Hf, IH.
  destruct (p a); [|reflexivity]. now destruct (forallb p l).
Qed.

Lemma build_term_eq (score_cut score_min : float) (item : string * float) :
  build_term score_cut score_min item
  = if xml_compatible (fst item)
    then Ok (term_of score_cut score_min item) else Raise ValueError.
Proof.
  destruct item as [dn s]. unfold build_term, xml_text. cbn [fst].
  now destruct (xml_compatible dn).
Qed.

Lemma build_termlist_eq (score_cut score_min : float)
    (entry : string * list (string * float)) :
  build_termlist score_cut score_min entry
  = if xml_compatible (fst entry) &&
       forallb (fun item => xml_compatible (fst item)) (snd entry)
    then Ok (termlist_of score_cut score_min entry) else Raise ValueError.
Proof.
  destruct entry as [qn items]. unfold build_termlist, xml_text. cbn [fst snd].
  destruct (xml_compatible qn); [|reflexivity]. cbn [bind andb].
  rewrite (for_each_accepting _ _ _ _ _ (build_term_eq score_cut score_min)).
  now destruct (forallb _ items).
Qed.

Lemma build_tree_eq (results : results_dict) (score_cut score_min : float) :
  build_tree results score_cut score_min
  = if names_accepted results
    then Ok (tree_of results score_cut score_min) else Raise ValueError.
Proof.
  unfold build_tree, names_accepted.
  rewrite (for_each_accepting _ _ _ _ _ (build_termlist_eq score_cut score_min)).
  now destruct (forallb _ results).
Qed.

Lemma names_accepted_items (results : results_dict) :
  names_accepted results = true ->
  forall key item, In (key, item) (dict_items results) ->
    xml_compatible key = true /\ xml_compatible (fst item) = true.
Proof.
  unfold names_accepted, dict_items. rewrite forallb_forall.
  intros H key item Hin. apply in_flat_map in Hin as (e & He & Hin).
  apply in_map_iff in Hin as (it & Heq & Hit). injection Heq as <- <-.
  apply H, andb_true_iff in He as [Hk Hi]. split; [exact Hk|].
  rewrite forallb_forall in Hi. now apply Hi.
Qed.

Lemma report_entries_build (results : results_dict) (score_cut score_min : float) :
  report_entries (tree_of results score_cut score_min)
  = map (fun e => (fst e, term_of score_cut score_min (snd e)))
        (dict_items results).
Proof.
  unfold report_entries, tree_of, dict_items; cbn [termlists].
  induction results as [|[k items] results IH]; [reflexivity|].
  cbn [map flat_map]. rewrite map_app, IH. f_equal.
  cbn [termlist_of terms termid fst snd]. now rewrite !map_map.
Qed.

Lemma log_records_names (W : Z) (n : nat) (rec : records feature) (tree : stdlist) :
  log_records segmental_dtw as_completed W n rec = Ok tree ->
  let order :=
    as_completed
      (submit_all (firstn n (features rec)) (firstn n (audio_names rec))
                  (skipn n (features rec)) (skipn n (audio_names rec))) in
  (1 <= W)%Z /\
  forall f, In f order ->
    xml_compatible (fut_query_name f) = true /\
    xml_compatible (fut_doc_name f) = true.
Proof.
  intros H order. unfold log_records in H.
  destruct (dispatch _ _ _ _ _ _ _) as [[results scores]|e] eqn:Hd;
    [|discriminate].
  assert (HW : (1 <= W)%Z).
  { unfold dispatch, ProcessPoolExecutor in Hd.
    destruct (W <=? 0)%Z eqn:E; [discriminate|]. apply Z.leb_gt in E. lia. }
  split; [exact HW|].
  apply dispatch_inv in Hd. fold order in Hd. cbn [bind] in H.
  destruct (determine_threshold scores) as [[cut mn]|e] eqn:Ht;
    [|discriminate].
  cbn [bind] in H. rewrite build_tree_eq in H.
  destruct (names_accepted results) eqn:Hn; [|discriminate].
  intros f Hf.
  apply (names_accepted_items _ Hn (fut_query_name f) (item_of segmental_dtw f)).
  assert (Hres : results = fst (collect segmental_dtw order)) by now rewrite <- Hd.
  subst results.
  eapply Permutation_in; [symmetry; apply collect_items|].
  apply (in_map (fun f => (fut_query_name f, item_of segmental_dtw f))), Hf.
Qed.

Lemma log_records_inv (W : Z) (n : nat) (rec : records feature) (tree : stdlist) :
  log_records segmental_dtw as_completed W n rec = Ok tree ->
  let order :=
    as_completed
      (submit_all (firstn n (features rec)) (firstn n (audio_names rec))
                  (skipn n (features rec)) (skipn n (audio_names rec))) in
  exists score_cut score_min,
    determine_threshold (map (future_score segmental_dtw) order)
    = Ok (score_cut, score_min) /\
    tree = tree_of (fst (collect segmental_dtw order)) score_cut score_min.
Proof.
  intros H order. unfold log_records in H.
  destruct (dispatch _ _ _ _ _ _ _) as [[results scores]|e] eqn:Hd;
    [|discriminate].
  apply dispatch_inv in Hd. fold order in Hd. cbn [bind] in H.
  destruct (determine_threshold scores) as [[cut mn]|e] eqn:Ht;
    [|discriminate].
  cbn [bind] in H. rewrite build_tree_eq in H.
  destruct (names_accepted results); [|discriminate]. injection H as <-.
  exists cut, mn. rewrite <- collect_scores, <- Hd. split; [exact Ht|reflexivity].
Qed.

Lemma decision_yes (score_cut score_min : float) (item : string * float) :
  decision (term_of score_cut score_min item) = "YES"
  <-> (score_cut < snd item)%Qc.
Proof.
  destruct item as [dn s]; cbn [term_of decision snd].
  rewrite <- ltb_lt. destruct (ltb score_cut s); split; congruence.
Qed.

Lemma decision_no (score_cut score_min : float) (item : string * float) :
  decision (term_of score_cut score_min item) = "NO"
  <-> (snd item <= score_cut)%Qc.
Proof.
  destruct item as [dn s]; cbn [term_of decision snd].
  destruct (ltb score_cut s) eqn:E.
  - apply ltb_lt in E. split; [discriminate|].
    intros H. now apply Qclt_not_le in E.
  - split; [intros _|reflexivity].
    apply Qcnot_lt_le. intros H. apply ltb_lt in H. congruence.
Qed.

(** C1 (as amended): the report holds one entry per collected result,
    under the result's query name and with the result's document name as
    [file].  Its [score] attribute is the double-precision difference
    [score - score_min], the double nearest to the exact difference,
    written with four decimals: the nearest multiple of 0.0001 to that
    double, ties to even, and not the difference itself.  Its [decision]
    is YES exactly when [score > score_cut], so a score equal to the cut
    is a NO. *)
Theorem report_entry_score_and_decision (W : Z) (n : nat)
    (rec : records feature) (tree : stdlist) :
  log_records segmental_dtw as_completed W n rec = Ok tree ->
  let order :=
    as_completed
      (submit_all (firstn n (features rec)) (firstn n (audio_names rec))
                  (skipn n (features rec)) (skipn n (audio_names rec))) in
  exists score_cut score_min,
    determine_threshold (map (future_score segmental_dtw) order)
    = Ok (score_cut, score_min) /\
    Permutation
      (map (fun e => (fst e, Ok (snd e))) (report_entries tree))
      (map (fun f => (fut_query_name f,
                      build_term score_cut score_min (item_of segmental_dtw f)))
           order) /\
    forall f, In f order ->
      let s := future_score segmental_dtw f in
      exists t,
        build_term score_cut score_min (item_of segmental_dtw f) = Ok t /\
        In (fut_query_name f, t) (report_entries tree) /\
        file t = fut_doc_name f /\
        score t = Binary64.format (Binary64.sub s score_min) /\
        (Binary64.sub s score_min = Binary64.Infinite false \/
         exists (v : float) (m : Z),
           Binary64.sub s score_min = Binary64.Finite v /\
           (0 <= v)%Qc /\
           score t = fixed4 m /\ (0 <= m)%Z /\
           (float_of_Z m - Q2Qc (1 # 2) <= v * float_of_Z 10000)%Qc /\
           (v * float_of_Z 10000 <= float_of_Z m + Q2Qc (1 # 2))%Qc) /\
        (decision t = "YES" <-> (score_cut < s)%Qc) /\
        (decision t = "NO" <-> (s <= score_cut)%Qc).
Proof.
  intros H order.
  destruct (log_records_names _ _ _ _ H) as [_ Hnames]. fold order in Hnames.
  destruct (log_records_inv _ _ _ _ H) as (cut & mn & Ht & ->). fold order in Ht.
  assert (Hbuild : forall f, In f order ->
            build_term cut mn (item_of segmental_dtw f)
            = Ok (term_of cut mn (item_of segmental_dtw f))).
  { intros f Hf. rewrite build_term_eq. cbn [item_of fst].
    now rewrite (proj2 (Hnames f Hf)). }
  assert (HP : Permutation
                 (report_entries (tree_of (fst (collect segmental_dtw order)) cut mn))
                 (map (fun f => (fut_query_name f,
                                 term_of cut mn (item_of segmental_dtw f)))
                      order)).
  { rewrite report_entries_build, collect_items, map_map. reflexivity. }
  exists cut, mn. split; [exact Ht|]. split.
  - eapply perm_trans; [apply Permutation_map, HP|].
    rewrite map_map. cbn [fst snd].
    erewrite map_ext_in; [reflexivity|].
    intros f Hf. cbn beta. now rewrite Hbuild.
  - intros f Hf s.
    exists (term_of cut mn (item_of segmental_dtw f)).
    split; [now apply Hbuild|]. split.
    { eapply Permutation_in; [symmetry; exact HP|].
      apply (in_map (fun f => (fut_query_name f,
                               term_of cut mn (item_of segmental_dtw f)))), Hf. }
    apply determine_threshold_inv in Ht as (_ & _ & _ & Hall).
    rewrite Forall_forall in Hall.
    assert (Hs : (0 <= s - mn)%Qc).
    { unfold Qcminus. apply (proj1 (Qcle_minus_iff mn s)).
      apply Hall, in_map, Hf. }
    split; [reflexivity|]. split; [reflexivity|]. split.
    + cbn [term_of item_of score snd]. fold s. unfold Binary64.sub.
      destruct (nearest_nonneg _ Hs) as [Hinf|(v & Hv & Hv0)];
        [now left|right].
      destruct (format_4f_nonneg _ Hv0) as (m & Hm).
      exists v, m. split; [exact Hv|]. split; [exact Hv0|].
      rewrite Hv. exact Hm.
    + split; [apply decision_yes|apply decision_no].
Qed.

(** C3: on an empty score list the estimator raises ([IndexError], from
    indexing the empty sorted list: the failure the specification calls
    InsufficientData), and [log_records] ends with that exception instead
    of a report. *)
Theorem no_scores_is_fatal (W : Z) (n : nat) (rec : records feature)
    (results : results_dict) :
  dispatch segmental_dtw as_completed W
    (firstn n (features rec)) (firstn n (audio_names rec))
    (skipn n (features rec)) (skipn n (audio_names rec))
  = Ok (results, []) ->
  determine_threshold [] = Raise IndexError /\
  log_records segmental_dtw as_completed W n rec = Raise IndexError.
Proof.
  intros H. split; [reflexivity|].
  unfold log_records. now rewrite H.
Qed.


End Properties.

Section TwoRuns.

Context {feature : Type}.
Variable segmental_dtw : feature -> feature -> float.
Variables as_completed as_completed' : list (future feature) -> list (future feature).

(** C8: two runs on the same input, with any positive pool sizes and any
    two completion orders, build the same groups (the same keys, and under
    each key the same entries up to order) and the same threshold. *)
Theorem completion_order_is_immaterial (W W' : Z)
    (queries : list feature) (query_names : list string)
    (docs : list feature) (doc_names : list string) :
  yields_each_once as_completed ->
  yields_each_once as_completed' ->
  (1 <= W)%Z -> (1 <= W')%Z ->
  exists results scores results' scores',
    dispatch segmental_dtw as_completed W queries query_names docs doc_names
    = Ok (results, scores) /\
    dispatch segmental_dtw as_completed' W' queries query_names docs doc_names
    = Ok (results', scores') /\
    (forall key, In key (dict_keys results) <-> In key (dict_keys results')) /\
    (forall key, Permutation (dict_get key results) (dict_get key results')) /\
    determine_threshold scores = determine_threshold scores'.
Proof.
  intros H1 H2 HW HW'.
  set (futures := submit_all queries query_names docs doc_names).
  assert (HP : Permutation (as_completed futures) (as_completed' futures))
    by (rewrite <- (H1 futures); apply H2).
  exists (fst (collect segmental_dtw (as_completed futures))),
         (snd (collect segmental_dtw (as_completed futures))),
         (fst (collect segmental_dtw (as_completed' futures))),
         (snd (collect segmental_dtw (as_completed' futures))).
  rewrite <- !surjective_pairing.
  split; [now apply dispatch_ok|]. split; [now apply dispatch_ok|].
  split; [|split].
  - intros key. rewrite !collect_keys.
    split; intros (f & Hin & Hk); exists f; (split; [|exact Hk]).
    + eapply Permutation_in; [exact HP|exact Hin].
    + eapply Permutation_in; [symmetry; exact HP|exact Hin].
  - intros key. rewrite !collect_get.
    now apply Permutation_map, Permutation_filter.
  - rewrite !collect_scores. unfold determine_threshold.
    now rewrite (sorted_of_permutation _ _
                   (Permutation_map (future_score segmental_dtw) HP)).
Qed.

End TwoRuns.

(** * The sample run *)

Lemma last_first_once : yields_each_once last_first.
Proof. intros futures. apply Permutation_rev. Qed.

Lemma as_submitted_once : yields_each_once as_submitted.
Proof. intros futures. apply Permutation_refl. Qed.

Lemma sample_run :
  log_records sample_dtw last_first 4 1 sample_records = Ok sample_tree.
Proof. vm_compute. reflexivity. Qed.

(** Two floats are equal when their values are. *)
Ltac float_eq := apply Qc_is_canon; vm_compute; reflexivity.

Ltac float_list_eq :=
  repeat (apply (f_equal2 (@cons float)); [float_eq|]); reflexivity.

Lemma sample_futures :
  submit_all sample_queries sample_query_names sample_docs sample_doc_names
  = [ {| fut_query := 7%Z; fut_doc := 0%Z;
         fut_query_name := "q1"; fut_doc_name := "d1" |};
      {| fut_query := 7%Z; fut_doc := 1%Z;
         fut_query_name := "q1"; fut_doc_name := "d2" |};
      {| fut_query := 7%Z; fut_doc := 65536%Z;
         fut_query_name := "q1"; fut_doc_name := "helloe" |} ].
Proof. reflexivity. Qed.

Lemma sample_scores_collected :
  map (future_score sample_dtw)
      (submit_all sample_queries sample_query_names sample_docs sample_doc_names)
  = sample_scores.
Proof.
  rewrite sample_futures. unfold sample_scores. cbn [map].
  float_list_eq.
Qed.

Lemma sample_threshold :
  determine_threshold (rev sample_scores) = Ok (Q2Qc 0, Q2Qc (-2)).
Proof.
  assert (Hs : sorted (rev sample_scores) = rev sample_scores)
    by (unfold sample_scores; cbn [rev app sorted insert]; float_list_eq).
  unfold determine_threshold. rewrite Hs, thresh_index_floor.
  reflexivity.
Qed.

(** ** Witnesses *)

Lemma threshold_is_rank_99_and_minimum_witness :
  sample_scores <> [] /\
  exists score_cut score_min ascending,
    determine_threshold sample_scores = Ok (score_cut, score_min) /\
    Permutation sample_scores ascending /\
    StronglySorted Qcle ascending /\
    nth_error ascending (99 * 3 / 100) = Some score_cut /\
    In score_min sample_scores /\
    Forall (fun s => (score_min <= s)%Qc) sample_scores /\
    ((Z.of_nat 3 < 2 ^ 47)%Z ->
     Binary64.thresh_index (Z.of_nat 3) = Some (Z.of_nat (99 * 3 / 100))).
Proof.
  split; [discriminate|].
  apply (threshold_is_rank_99_and_minimum sample_scores). discriminate.
Defined.

Lemma threshold_index_in_range_witness :
  (1 <= List.length sample_scores)%nat /\
  (0 <= int (Q2Qc (99 # 100) * float_of_Z 3)%Qc <= 3 - 1)%Z /\
  (exists s,
    getitem (sorted sample_scores) (int (Q2Qc (99 # 100) * float_of_Z 3)%Qc)
    = Ok s) /\
  ((3 < 2 ^ 47)%Z ->
   Binary64.thresh_index 3 = Some (int (Q2Qc (99 # 100) * float_of_Z 3)%Qc)).
Proof.
  split; [simpl; lia|].
  apply (threshold_index_in_range sample_scores). simpl; lia.
Defined.

Lemma match_score_is_negated_cost_witness :
  match_ sample_dtw 7%Z 1%Z "q1" "d2"
  = ("q1", "d2", (- sample_dtw 7%Z 1%Z)%Qc)
  /\ (forall (query' doc' : Z) (query_name' doc_name' : string),
      (sample_dtw 7%Z 1%Z < sample_dtw query' doc')%Qc
      <-> (snd (match_ sample_dtw query' doc' query_name' doc_name')
           < snd (match_ sample_dtw 7%Z 1%Z "q1" "d2"))%Qc)
  /\ (forall cost : spec_float,
      valid_binary Binary64.prec Binary64.emax cost = true ->
      Binary64.mul (Binary64.of_int (-1)) cost = SFopp cost).
Proof.
  exact (match_score_is_negated_cost sample_dtw 7%Z 1%Z "q1" "d2").
Defined.

Lemma report_entry_score_and_decision_witness :
  log_records sample_dtw last_first 4 1 sample_records = Ok sample_tree /\
  let order :=
    last_first
      (submit_all (firstn 1 (features sample_records))
                  (firstn 1 (audio_names sample_records))
                  (skipn 1 (features sample_records))
                  (skipn 1 (audio_names sample_records))) in
  exists score_cut score_min,
    determine_threshold (map (future_score sample_dtw) order)
    = Ok (score_cut, score_min) /\
    Permutation
      (map (fun e => (fst e, Ok (snd e))) (report_entries sample_tree))
      (map (fun f => (fut_query_name f,
                      build_term score_cut score_min (item_of sample_dtw f)))
           order) /\
    forall f, In f order ->
      let s := future_score sample_dtw f in
      exists t,
        build_term score_cut score_min (item_of sample_dtw f) = Ok t /\
        In (fut_query_name f, t) (report_entries sample_tree) /\
        file t = fut_doc_name f /\
        score t = Binary64.format (Binary64.sub s score_min) /\
        (Binary64.sub s score_min = Binary64.Infinite false \/
         exists (v : float) (m : Z),
           Binary64.sub s score_min = Binary64.Finite v /\
           (0 <= v)%Qc /\
           score t = fixed4 m /\ (0 <= m)%Z /\
           (float_of_Z m - Q2Qc (1 # 2) <= v * float_of_Z 10000)%Qc /\
           (v * float_of_Z 10000 <= float_of_Z m + Q2Qc (1 # 2))%Qc) /\
        (decision t = "YES" <-> (score_cut < s)%Qc) /\
        (decision t = "NO" <-> (s <= score_cut)%Qc).
Proof.
  split; [vm_compute; reflexivity|].
  apply (report_entry_score_and_decision sample_dtw last_first 4 1
           sample_records sample_tree).
  vm_compute; reflexivity.
Defined.

Lemma no_scores_is_fatal_witness :
  dispatch sample_dtw last_first 4
    (firstn 0 (features sample_records)) (firstn 0 (audio_names sample_records))
    (skipn 0 (features sample_records)) (skipn 0 (audio_names sample_records))
  = Ok ([], []) /\
  determine_threshold [] = Raise IndexError /\
  log_records sample_dtw last_first 4 0 sample_records = Raise IndexError.
Proof.
  split; [reflexivity|].
  apply (no_scores_is_fatal sample_dtw last_first 4 0 sample_records []).
  reflexivity.
Defined.

Lemma dispatch_covers_cross_product_witness :
  yields_each_once last_first /\ (1 <= 4)%Z /\
  let Q := combine sample_queries sample_query_names in
  let D := combine sample_docs sample_doc_names in
  let futures :=
    submit_all sample_queries sample_query_names sample_docs sample_doc_names in
  let collected := map (future_result sample_dtw) (last_first futures) in
  List.length futures = (List.length Q * List.length D)%nat /\
  List.length collected = (List.length Q * List.length D)%nat /\
  Permutation collected
    (map (fun p => match_ sample_dtw (fst (fst p)) (fst (snd p))
                     (replace ".wav" EmptyString (snd (fst p)))
                     (replace ".wav" EmptyString (snd (snd p))))
         (list_prod Q D)) /\
  exists results,
    dispatch sample_dtw last_first 4
      sample_queries sample_query_names sample_docs sample_doc_names
    = Ok (results, map snd collected) /\
    Permutation (dict_items results)
      (map (fun r => (fst (fst r), (snd (fst r), snd r))) collected).
Proof.
  split; [exact last_first_once|]. split; [lia|].
  apply (dispatch_covers_cross_product sample_dtw last_first 4
           sample_queries sample_query_names sample_docs sample_doc_names).
  - exact last_first_once.
  - lia.
Defined.

Lemma dispatch_of_nothing_witness :
  yields_each_once last_first /\ (1 <= 4)%Z /\
  (sample_queries = [] \/ @nil Z = []) /\
  submit_all sample_queries sample_query_names [] [] = [] /\
  dispatch sample_dtw last_first 4 sample_queries sample_query_names [] []
  = Ok ([], []).
Proof.
  split; [exact last_first_once|]. split; [lia|]. split; [now right|].
  apply (dispatch_of_nothing sample_dtw last_first 4
           sample_queries sample_query_names [] []).
  - exact last_first_once.
  - lia.
  - now right.
Defined.

Lemma completion_order_is_immaterial_witness :
  yields_each_once last_first /\ yields_each_once as_submitted /\
  (1 <= 4)%Z /\ (1 <= 1)%Z /\
  exists results scores results' scores',
    dispatch sample_dtw last_first 4
      sample_queries sample_query_names sample_docs sample_doc_names
    = Ok (results, scores) /\
    dispatch sample_dtw as_submitted 1
      sample_queries sample_query_names sample_docs sample_doc_names
    = Ok (results', scores') /\
    (forall key, In key (dict_keys results) <-> In key (dict_keys results')) /\
    (forall key, Permutation (dict_get key results) (dict_get key results')) /\
    determine_threshold scores = determine_threshold scores'.
Proof.
  split; [exact last_first_once|]. split; [exact as_submitted_once|].
  split; [lia|]. split; [lia|].
  apply (completion_order_is_immaterial sample_dtw last_first as_submitted 4 1
           sample_queries sample_query_names sample_docs sample_doc_names).
  - exact last_first_once.
  - exact as_submitted_once.
  - lia.
  - lia.
Defined.


(** ** Where the report departs from the specification's wording *)

(** C1, counterexample: in the sample run the results for [d1] and [d2]
    lie 2 and 65535/32768 above the minimum, both differences are doubles,
    and the report gives both the score ["2.0000"]: however the attribute
    is read, it cannot be [score - score_min] for both. *)
Lemma report_score_is_rounded :
  let d1 := {| fut_query := 7%Z; fut_doc := 0%Z;
               fut_query_name := "q1"; fut_doc_name := "d1" |} in
  let d2 := {| fut_query := 7%Z; fut_doc := 1%Z;
               fut_query_name := "q1"; fut_doc_name := "d2" |} in
  let order :=
    last_first
      (submit_all sample_queries sample_query_names sample_docs sample_doc_names) in
  let score_cut := Q2Qc 0 in
  let score_min := Q2Qc (-2) in
  log_records sample_dtw last_first 4 1 sample_records = Ok sample_tree /\
  determine_threshold (map (future_score sample_dtw) order)
  = Ok (score_cut, score_min) /\
  In d1 order /\ In d2 order /\
  build_term score_cut score_min (item_of sample_dtw d1)
  = Ok (sample_term "d1" "2.0000") /\
  build_term score_cut score_min (item_of sample_dtw d2)
  = Ok (sample_term "d2" "2.0000") /\
  In ("q1", sample_term "d1" "2.0000") (report_entries sample_tree) /\
  In ("q1", sample_term "d2" "2.0000") (report_entries sample_tree) /\
  (future_score sample_dtw d1 - score_min = Q2Qc 2)%Qc /\
  (future_score sample_dtw d2 - score_min = Q2Qc (65535 # 32768))%Qc /\
  Binary64.sub (future_score sample_dtw d1) score_min
  = Binary64.Finite (Q2Qc 2) /\
  Binary64.sub (future_score sample_dtw d2) score_min
  = Binary64.Finite (Q2Qc (65535 # 32768)) /\
  Q2Qc 2 <> Q2Qc (65535 # 32768) /\
  ~ (exists value : string -> float,
       forall f t, In f order ->
         build_term score_cut score_min (item_of sample_dtw f) = Ok t ->
         value (score t) = (future_score sample_dtw f - score_min)%Qc).
Proof.
  intros d1 d2 order score_cut score_min.
  assert (Hne : Q2Qc 2 <> Q2Qc (65535 # 32768)).
  { intros H. apply (f_equal this) in H. vm_compute in H. discriminate. }
  assert (Hd1 : In d1 order)
    by (subst order; rewrite sample_futures; simpl; auto).
  assert (Hd2 : In d2 order)
    by (subst order; rewrite sample_futures; simpl; auto).
  assert (Hs1 : build_term score_cut score_min (item_of sample_dtw d1)
                = Ok (sample_term "d1" "2.0000")) by (vm_compute; reflexivity).
  assert (Hs2 : build_term score_cut score_min (item_of sample_dtw d2)
                = Ok (sample_term "d2" "2.0000")) by (vm_compute; reflexivity).
  assert (Hv1 : (future_score sample_dtw d1 - score_min = Q2Qc 2)%Qc)
    by float_eq.
  assert (Hv2 : (future_score sample_dtw d2 - score_min
                 = Q2Qc (65535 # 32768))%Qc) by float_eq.
  split; [vm_compute; reflexivity|].
  split.
  { subst order. unfold last_first. rewrite map_rev, sample_scores_collected.
    exact sample_threshold. }
  split; [exact Hd1|]. split; [exact Hd2|].
  split; [exact Hs1|]. split; [exact Hs2|].
  split; [vm_compute; auto|]. split; [vm_compute; auto|].
  split; [exact Hv1|]. split; [exact Hv2|].
  split; [unfold Binary64.sub; rewrite Hv1; vm_compute; f_equal; float_eq|].
  split; [unfold Binary64.sub; rewrite Hv2; vm_compute; f_equal; float_eq|].
  split; [exact Hne|].
  intros (value & Hvalue).
  pose proof (Hvalue d1 _ Hd1 Hs1) as H1. pose proof (Hvalue d2 _ Hd2 Hs2) as H2.
  cbn [sample_term score] in H1, H2. rewrite Hv1 in H1. rewrite Hv2 in H2.
  congruence.
Qed.

(** The subtraction rounds before the text is made: for the scores
    [-3/32] (the minimum) and [-2^-70] the exact difference lies below
    0.09375 and would be written ["0.0937"]; the double nearest to it is
    0.09375 itself, as [SpecFloat] computes it too, and the report says
    ["0.0938"]. *)
Lemma score_difference_rounds_first :
  let score := Q2Qc (-1 # 2 ^ 70) in
  let score_min := Q2Qc (-3 # 32) in
  build_term score_min score_min ("d", score)
  = Ok {| file := "d"; channel := "1"; tbeg := "0.000"; dur := "0.00";
          score := "0.0938"; decision := "YES" |} /\
  format_4f (score - score_min)%Qc = "0.0937" /\
  Binary64.sub score score_min = Binary64.Finite (Q2Qc (3 # 32)) /\
  Binary64.of_spec
    (SFsub Binary64.prec Binary64.emax
       (S754_finite true (2 ^ 52) (-122)) (S754_finite true (3 * 2 ^ 51) (-56)))
  = Some (Binary64.Finite (Q2Qc (3 # 32))) /\
  Binary64.value (S754_finite true (2 ^ 52) (-122)) = score /\
  Binary64.value (S754_finite true (3 * 2 ^ 51) (-56)) = score_min.
Proof.
  intros score score_min.
  split; [vm_compute; reflexivity|]. split; [vm_compute; reflexivity|].
  split; [unfold Binary64.sub, Binary64.nearest; vm_compute; f_equal; float_eq|].
  split; [vm_compute; do 2 f_equal; float_eq|].
  split; float_eq.
Qed.

(** A name with a control character is refused when its element is made:
    [log_records] ends with lxml's [ValueError] and no tree. *)
Lemma control_character_is_refused :
  xml_compatible (String (ascii_of_nat 7) "d1") = false /\
  build_term (Q2Qc 0) (Q2Qc 0) (String (ascii_of_nat 7) "d1", Q2Qc 0)
  = Raise ValueError /\
  log_records sample_dtw last_first 4 1 bell_records = Raise ValueError.
Proof. repeat split; vm_compute; reflexivity. Qed.

(** C7, the code at the failing input: the sample document named
    ["hello.wave.wav"] was scored against the query and its term is in the
    report with [file] ["helloe"], where the name with the extension
    dropped is ["hello.wave"]; no term of the report carries that, or any
    document's name without its extension, for this document. *)
Theorem report_file_loses_inner_wav :
  let doc := (65536%Z, "hello.wave.wav") in
  let f := task_of (7%Z, "q1.wav") doc in
  let order :=
    last_first
      (submit_all sample_queries sample_query_names sample_docs sample_doc_names) in
  exists t,
    log_records sample_dtw last_first 4 1 sample_records = Ok sample_tree /\
    In doc (combine sample_docs sample_doc_names) /\
    In f order /\
    build_term (Q2Qc 0) (Q2Qc (-2)) (item_of sample_dtw f) = Ok t /\
    In ("q1", t) (report_entries sample_tree) /\
    file t = "helloe" /\
    replace ".wav" EmptyString (snd doc) = "helloe" /\
    removesuffix ".wav" (snd doc) = "hello.wave" /\
    (forall d, In d (combine sample_docs sample_doc_names) ->
               file t <> removesuffix ".wav" (snd d)) /\
    (forall tid t', In (tid, t') (report_entries sample_tree) ->
                    file t' <> removesuffix ".wav" (snd doc)).
Proof.
  intros doc f order.
  exists (sample_term "helloe" "0.0000").
  split; [vm_compute; reflexivity|].
  split; [vm_compute; auto|].
  split; [subst order; rewrite sample_futures; simpl; auto|].
  split; [vm_compute; reflexivity|].
  split; [vm_compute; auto|].
  split; [reflexivity|]. split; [reflexivity|]. split; [reflexivity|].
  split.
  - intros d Hd. vm_compute in Hd.
    destruct Hd as [<-|[<-|[<-|[]]]]; vm_compute; discriminate.
  - intros tid t' Hin. vm_compute in Hin.
    destruct Hin as [Hin|[Hin|[Hin|[]]]]; injection Hin as <- <-;
      vm_compute; discriminate.
Qed.


(** * More of the expert *)

(** ** [forward] *)

Section ForwardProperties.

Context {tensor feature : Type}.
Variable to_double : tensor -> feature.

Lemma forward_fold (items : list (tensor * string)) (rec : records feature) :
  fold_left (forward_step to_double) items rec
  = {| features := features rec ++ map (fun p => to_double (fst p)) items;
       audio_names := audio_names rec ++ map snd items |}.
Proof.
  revert rec. induction items as [|[x name] items IH]; intros rec.
  - destruct rec; cbn. now rewrite !app_nil_r.
  - cbn [fold_left]. rewrite IH. cbn. now rewrite <- !app_assoc.
Qed.

Lemma combine_fst_firstn {A B : Type} (l : list A) (l' : list B) :
  map fst (combine l l') = firstn (Nat.min (List.length l) (List.length l')) l.
Proof.
  revert l'. induction l as [|x l IH]; intros [|y l']; cbn; [reflexivity..|].
  now rewrite IH.
Qed.

Lemma combine_snd_firstn {A B : Type} (l : list A) (l' : list B) :
  map snd (combine l l') = firstn (Nat.min (List.length l) (List.length l')) l'.
Proof.
  revert l'. induction l as [|x l IH]; intros [|y l']; cbn; [reflexivity..|].
  now rewrite IH.
Qed.

(** X1: [forward] appends to both lists of [records], in batch order, the
    first [min(len(features), len(audio_names))] items of the batch (the
    tensors converted); what the lists held stays in front, so lists of
    equal length remain of equal length.  The loss returned is zero. *)
Theorem forward_appends_the_zipped_batch (features0 : list tensor)
    (audio_names0 : list string) (rec : records feature) :
  let k := Nat.min (List.length features0) (List.length audio_names0) in
  let rec' := fst (forward to_double features0 audio_names0 rec) in
  features rec' = features rec ++ map to_double (firstn k features0) /\
  audio_names rec' = audio_names rec ++ firstn k audio_names0 /\
  (List.length (features rec) = List.length (audio_names rec) ->
   List.length (features rec') = List.length (audio_names rec')) /\
  snd (forward to_double features0 audio_names0 rec) = [float_of_Z 0].
Proof.
  intros k rec'. subst rec'. unfold forward. cbn [fst snd].
  rewrite forward_fold. cbn [features audio_names].
  rewrite <- (map_map fst to_double), combine_fst_firstn, combine_snd_firstn.
  fold k. repeat split.
  intros Hlen. rewrite !length_app, length_map, !length_firstn, Hlen.
  subst k. lia.
Qed.

End ForwardProperties.

(** ** Lists, the results dictionary and the sorted scores *)

Lemma list_prod_nil_r {A B : Type} (l : list A) : list_prod l (@nil B) = [].
Proof. induction l as [|x l IH]; [reflexivity|exact IH]. Qed.

Lemma filter_uniform {A : Type} (p : A -> bool) (b : bool) (l : list A) :
  (forall x, In x l -> p x = b) -> filter p l = if b then l else [].
Proof.
  induction l as [|x l IH]; intros H; cbn [filter].
  - now destruct b.
  - rewrite (H x (or_introl eq_refl)), IH by (intros y Hy; apply H; now right).
    now destruct b.
Qed.

Lemma map_of_flat_map {A B C : Type} (f : B -> C) (g : A -> list B) (l : list A) :
  map f (flat_map g l) = flat_map (fun x => map f (g x)) l.
Proof.
  induction l as [|x l IH]; [reflexivity|].
  cbn [flat_map]. now rewrite map_app, IH.
Qed.

Lemma flat_map_rows_length {A B C : Type} (g : A -> B -> C) (l : list A) (l' : list B) :
  List.length (flat_map (fun x => map (g x) l') l)
  = (List.length l * List.length l')%nat.
Proof.
  induction l as [|x l IH]; [reflexivity|].
  cbn [flat_map]. rewrite length_app, length_map, IH. reflexivity.
Qed.

Lemma dict_append_keys_nodup (k : string) (v : string * float) (d : results_dict) :
  NoDup (dict_keys d) -> NoDup (dict_keys (dict_append k v d)).
Proof.
  induction d as [|[k0 items] d IH]; intros Hnd.
  - cbn. constructor; [intros []|constructor].
  - cbn [dict_append]. destruct (String.eqb k0 k) eqn:E; [exact Hnd|].
    inversion Hnd as [|? ? Hnotin Hnd']; subst.
    change (NoDup (k0 :: dict_keys (dict_append k v d))).
    constructor; [|now apply IH].
    rewrite dict_keys_append. intros [->|Hin]; [|contradiction].
    rewrite String.eqb_refl in E. discriminate.
Qed.

Lemma dict_append_filled (k : string) (v : string * float) (d : results_dict) :
  Forall (fun e => snd e <> []) d ->
  Forall (fun e => snd e <> []) (dict_append k v d).
Proof.
  induction d as [|[k0 items] d IH]; intros Hall.
  - cbn. constructor; [discriminate|constructor].
  - cbn [dict_append]. inversion Hall as [|? ? Hhd Htl]; subst.
    destruct (String.eqb k0 k).
    + constructor; [|exact Htl]. cbn. now destruct items.
    + constructor; [exact Hhd|now apply IH].
Qed.

(** In an ascending list the elements above the one at index [i] all
    stand after it. *)
Lemma ascending_count_above (l : list float) (i : nat) (c : float) :
  StronglySorted Qcle l -> nth_error l i = Some c ->
  (List.length (filter (ltb c) l) + i + 1 <= List.length l)%nat.
Proof.
  intros Hs. revert i. induction Hs as [|x l Hs IH Hall]; intros i Hi.
  - destruct i; discriminate.
  - assert (Hx : ltb c x = false).
    { apply not_true_is_false. intros Hlt. apply ltb_lt in Hlt.
      apply Qclt_not_le in Hlt. apply Hlt.
      destruct i as [|i]; cbn in Hi.
      - injection Hi as ->. apply Qcle_refl.
      - rewrite Forall_forall in Hall. eapply Hall, nth_error_In, Hi. }
    cbn [filter]. rewrite Hx. destruct i as [|i]; cbn in Hi |- *.
    + pose proof (filter_length_le (ltb c) l). lia.
    + specialize (IH i Hi). lia.
Qed.

Lemma rank_99_of_small (N : nat) :
  (1 <= N <= 100)%nat -> (99 * N / 100 = N - 1)%nat.
Proof.
  intros H. symmetry. apply (Nat.div_unique _ _ _ (100 - N)); lia.
Qed.

(** ** The four-decimal text *)

Lemma digits_then_point (d d' : Decimal.uint) (t t' : string) :
  (NilEmpty.string_of_uint d ++ String "." t)%string
  = (NilEmpty.string_of_uint d' ++ String "." t')%string ->
  d = d' /\ t = t'.
Proof.
  revert d'.
  induction d as [|d IH|d IH|d IH|d IH|d IH|d IH|d IH|d IH|d IH|d IH];
    intros [|d'|d'|d'|d'|d'|d'|d'|d'|d'|d'];
    cbn [NilEmpty.string_of_uint append];
    intros H; try discriminate H;
    try (injection H as H; destruct (IH _ H) as [-> ->]; now split).
  injection H as ->. now split.
Qed.

Lemma str_of_Z_point (a b : Z) (t t' : string) :
  (0 <= a)%Z -> (0 <= b)%Z ->
  (str_of_Z a ++ String "." t)%string = (str_of_Z b ++ String "." t')%string ->
  a = b /\ t = t'.
Proof.
  intros Ha Hb H. unfold str_of_Z in H.
  assert (Hnz : forall n, NilZero.string_of_uint (N.to_uint n)
                          = NilEmpty.string_of_uint (N.to_uint n)).
  { intros [|p]; [reflexivity|]. cbn [N.to_uint].
    pose proof (Unsigned.to_uint_nonnil p).
    unfold NilZero.string_of_uint. now destruct (Pos.to_uint p). }
  rewrite !Hnz in H. apply digits_then_point in H as [H ->].
  split; [|reflexivity].
  apply DecimalN.Unsigned.to_uint_inj in H. lia.
Qed.

Lemma digit_inj (a b : Z) :
  (0 <= a < 10)%Z -> (0 <= b < 10)%Z -> digit a = digit b -> a = b.
Proof.
  intros Ha Hb H. unfold digit in H.
  apply (f_equal nat_of_ascii) in H.
  rewrite !nat_ascii_embedding in H by lia. lia.
Qed.

(** The text of [fixed4] tells the integer it was written from. *)
Lemma fixed4_inj (a b : Z) :
  (0 <= a)%Z -> (0 <= b)%Z -> fixed4 a = fixed4 b -> a = b.
Proof.
  intros Ha Hb H. unfold fixed4 in H. cbn [append] in H.
  apply str_of_Z_point in H as [Hq Ht];
    try (apply Z.div_pos; lia).
  injection Ht as H3 H2 H1 H0.
  pose proof (Z.mod_pos_bound a 10000 ltac:(lia)).
  pose proof (Z.mod_pos_bound b 10000 ltac:(lia)).
  apply digit_inj in H3, H2, H1, H0;
    try (split; [apply Z.div_pos; lia|apply Z.div_lt_upper_bound; lia]);
    try (apply Z.mod_pos_bound; lia).
  Z.div_mod_to_equations. lia.
Qed.

Lemma scaled_nonneg (x : float) :
  (0 <= x)%Qc -> (0 <= x * float_of_Z 10000)%Qc.
Proof.
  intros Hx. replace 0%Qc with (0 * float_of_Z 10000)%Qc by ring.
  apply Qcmult_le_compat_r; [exact Hx|]. now vm_compute.
Qed.

(** On a float that is not negative [format_4f] writes no sign. *)
Lemma format_4f_rounds (x : float) :
  (0 <= x)%Qc ->
  format_4f x = fixed4 (round_half_even (x * float_of_Z 10000)%Qc) /\
  (0 <= round_half_even (x * float_of_Z 10000)%Qc)%Z.
Proof.
  intros Hx.
  pose proof (round_half_even_nonneg _ (scaled_nonneg x Hx)) as Hm.
  split; [|exact Hm].
  unfold format_4f.
  replace (ltb x (float_of_Z 0)) with false.
  - cbn [append]. now rewrite Z.abs_eq.
  - symmetry. apply not_true_is_false. intros Hlt. apply ltb_lt in Hlt.
    apply Qclt_not_le in Hlt. now apply Hlt.
Qed.

Lemma round_half_even_mono (x y : float) :
  (x <= y)%Qc -> (round_half_even x <= round_half_even y)%Z.
Proof.
  intros Hle. destruct (Qcle_lt_or_eq _ _ Hle) as [Hlt| ->]; [|lia].
  destruct (round_half_even_near x) as [Hlo _].
  destruct (round_half_even_near y) as [_ Hhi].
  assert (H : (inject_Z (round_half_even x) - (1 # 2)
               < inject_Z (round_half_even y) + (1 # 2))%Q).
  { eapply Qle_lt_trans; [exact Hlo|].
    eapply Qlt_le_trans; [exact Hlt|exact Hhi]. }
  unfold Qlt, Qminus, Qplus, Qopp, inject_Z in H. cbn [Qnum Qden] in H. lia.
Qed.

(** X8: [f"{x:.4f}"] keeps the order of floats that are not negative:
    the texts of [x <= y] are those of two integers [a <= b], the
    roundings of [10000 x] and [10000 y]. *)
Theorem format_4f_keeps_order (x y : float) :
  (0 <= x)%Qc -> (x <= y)%Qc ->
  let a := round_half_even (x * float_of_Z 10000)%Qc in
  let b := round_half_even (y * float_of_Z 10000)%Qc in
  format_4f x = fixed4 a /\ format_4f y = fixed4 b /\ (0 <= a <= b)%Z.
Proof.
  intros Hx Hxy a b.
  assert (Hy : (0 <= y)%Qc) by (eapply Qcle_trans; eassumption).
  destruct (format_4f_rounds x Hx) as [Hfx Ha].
  destruct (format_4f_rounds y Hy) as [Hfy _].
  split; [exact Hfx|]. split; [exact Hfy|]. split; [exact Ha|].
  apply round_half_even_mono.
  apply Qcmult_le_compat_r; [exact Hxy|]. now vm_compute.
Qed.

(** X9: two floats that are not negative get the same text from
    [f"{x:.4f}"] exactly when [10000 x] and [10000 y] round to the same
    integer. *)
Theorem format_4f_same_text (x y : float) :
  (0 <= x)%Qc -> (0 <= y)%Qc ->
  format_4f x = format_4f y
  <-> round_half_even (x * float_of_Z 10000)%Qc
      = round_half_even (y * float_of_Z 10000)%Qc.
Proof.
  intros Hx Hy.
  destruct (format_4f_rounds x Hx) as [-> Ha].
  destruct (format_4f_rounds y Hy) as [-> Hb].
  split; [now apply fixed4_inj|now intros ->].
Qed.

(** ** The whole of [log_records] *)

Section LogRecords.

Context {feature : Type}.
Variable segmental_dtw : feature -> feature -> float.

Lemma collect_from_shape (order : list (future feature))
    (d : results_dict) (sc : list float) :
  NoDup (dict_keys d) -> Forall (fun e => snd e <> []) d ->
  NoDup (dict_keys (fst (fold_left (collect_step segmental_dtw) order (d, sc))))
  /\ Forall (fun e => snd e <> [])
       (fst (fold_left (collect_step segmental_dtw) order (d, sc))).
Proof.
  revert d sc. induction order as [|f order IH]; intros d sc Hnd Hall.
  - now split.
  - cbn [fold_left collect_step]. rewrite future_result_eq. apply IH.
    + now apply dict_append_keys_nodup.
    + now apply dict_append_filled.
Qed.

Lemma submitted_filter (key : string) (Q D : list (feature * string)) :
  filter (fun f => String.eqb (fut_query_name f) key)
         (map (fun p => task_of (fst p) (snd p)) (list_prod Q D))
  = flat_map (fun q => map (task_of q) D)
      (filter (fun q => String.eqb (replace ".wav" EmptyString (snd q)) key) Q).
Proof.
  induction Q as [|q Q IH]; [reflexivity|].
  cbn [list_prod filter]. rewrite map_app, filter_app, IH, map_map.
  cbn [fst snd].
  rewrite (filter_uniform _
             (String.eqb (replace ".wav" EmptyString (snd q)) key));
    [|intros f Hf; apply in_map_iff in Hf as (d & <- & _); reflexivity].
  destruct (String.eqb _ key); reflexivity.
Qed.

Variable as_completed : list (future feature) -> list (future feature).

Lemma report_entries_perm (W : Z) (n : nat) (rec : records feature)
    (tree : stdlist) :
  log_records segmental_dtw as_completed W n rec = Ok tree ->
  let order :=
    as_completed
      (submit_all (firstn n (features rec)) (firstn n (audio_names rec))
                  (skipn n (features rec)) (skipn n (audio_names rec))) in
  exists score_cut score_min,
    determine_threshold (map (future_score segmental_dtw) order)
    = Ok (score_cut, score_min) /\
    Permutation (report_entries tree)
      (map (fun f => (fut_query_name f,
                      term_of score_cut score_min (item_of segmental_dtw f)))
           order).
Proof.
  intros H order.
  destruct (log_records_inv _ _ _ _ _ _ H) as (cut & mn & Ht & ->).
  fold order in Ht. exists cut, mn. split; [exact Ht|].
  rewrite report_entries_build, collect_items, map_map. reflexivity.
Qed.

(** X2: how [log_records] ends.  A pool size below one raises
    [ValueError] before anything else; with a valid pool and no
    (query, document) pair the threshold lookup raises [IndexError]; and a
    tree is built only with a valid pool, at least one pair, and query and
    document names that, once [".wav"] is taken out, are XML-compatible
    texts. *)
Theorem log_records_outcome (W : Z) (n : nat) (rec : records feature) :
  yields_each_once as_completed ->
  let Q := combine (firstn n (features rec)) (firstn n (audio_names rec)) in
  let D := combine (skipn n (features rec)) (skipn n (audio_names rec)) in
  ((W <= 0)%Z ->
   log_records segmental_dtw as_completed W n rec = Raise ValueError) /\
  ((1 <= W)%Z -> Q = [] \/ D = [] ->
   log_records segmental_dtw as_completed W n rec = Raise IndexError) /\
  (forall tree,
     log_records segmental_dtw as_completed W n rec = Ok tree ->
     (1 <= W)%Z /\ Q <> [] /\ D <> [] /\
     (forall q, In q Q ->
        xml_compatible (replace ".wav" EmptyString (snd q)) = true) /\
     (forall d, In d D ->
        xml_compatible (replace ".wav" EmptyString (snd d)) = true)).
Proof.
  intros Hperm Q D.
  assert (Hempty : (1 <= W)%Z -> Q = [] \/ D = [] ->
            log_records segmental_dtw as_completed W n rec = Raise IndexError).
  { intros HW Hnone. unfold log_records.
    rewrite dispatch_ok, submit_all_prod by exact HW. fold Q D.
    replace (list_prod Q D) with (@nil (feature * string * (feature * string)))
      by (destruct Hnone as [-> | ->]; [reflexivity|now rewrite list_prod_nil_r]).
    cbn [map]. rewrite (as_completed_nil _ Hperm). reflexivity. }
  split; [|split; [exact Hempty|]].
  - intros HW. unfold log_records, dispatch, ProcessPoolExecutor.
    destruct (Z.leb_spec W 0); [reflexivity|lia].
  - intros tree H.
    destruct (log_records_names _ _ _ _ _ _ H) as [HW Hnames].
    assert (HQ : Q <> []).
    { intros E. rewrite (Hempty HW (or_introl E)) in H. discriminate. }
    assert (HD : D <> []).
    { intros E. rewrite (Hempty HW (or_intror E)) in H. discriminate. }
    assert (Hin : forall q d, In q Q -> In d D ->
              In (task_of q d)
                 (as_completed
                    (submit_all (firstn n (features rec)) (firstn n (audio_names rec))
                       (skipn n (features rec)) (skipn n (audio_names rec))))).
    { intros q d Hq Hd. eapply Permutation_in; [apply Hperm|].
      rewrite submit_all_prod. fold Q D.
      apply (in_map (fun p => task_of (fst p) (snd p)) _ (q, d)).
      now apply in_prod. }
    split; [exact HW|]. split; [exact HQ|]. split; [exact HD|]. split.
    + intros q Hq. destruct D as [|d D']; [congruence|].
      exact (proj1 (Hnames _ (Hin q d Hq (or_introl eq_refl)))).
    + intros d Hd. destruct Q as [|q Q']; [congruence|].
      exact (proj2 (Hnames _ (Hin q d (or_introl eq_refl) Hd))).
Qed.

(** X3: in a tree [log_records] builds, no two [detected_termlist]
    elements have the same [termid], and none of them is without a
    [term]. *)
Theorem termlists_are_distinct_and_filled (W : Z) (n : nat)
    (rec : records feature) (tree : stdlist) :
  log_records segmental_dtw as_completed W n rec = Ok tree ->
  NoDup (map termid (termlists tree)) /\
  Forall (fun tl => terms tl <> []) (termlists tree).
Proof.
  intros H.
  destruct (log_records_inv _ _ _ _ _ _ H) as (cut & mn & _ & ->).
  set (order := as_completed _).
  destruct (collect_from_shape order [] [] (NoDup_nil _) (Forall_nil _))
    as [Hnd Hall].
  fold (collect segmental_dtw order) in Hnd, Hall.
  cbn [tree_of termlists]. split.
  - rewrite map_map.
    erewrite map_ext; [exact Hnd|]. now intros [k items].
  - apply Forall_map. eapply Forall_impl; [|exact Hall].
    intros [k items] Hne. cbn in *. now destruct items.
Qed.

(** X4: the list filed under a key holds, up to order, one result for
    every document and every query whose name without [".wav"] is the
    key; queries that share such a name share the list. *)
Theorem group_holds_every_document (W : Z)
    (queries : list feature) (query_names : list string)
    (docs : list feature) (doc_names : list string)
    (results : results_dict) (scores : list float) (key : string) :
  yields_each_once as_completed ->
  dispatch segmental_dtw as_completed W queries query_names docs doc_names
  = Ok (results, scores) ->
  let D := combine docs doc_names in
  let same_name :=
    filter (fun q => String.eqb (replace ".wav" EmptyString (snd q)) key)
           (combine queries query_names) in
  Permutation (dict_get key results)
    (flat_map (fun q => map (fun d => item_of segmental_dtw (task_of q d)) D)
              same_name) /\
  List.length (dict_get key results)
  = (List.length same_name * List.length D)%nat.
Proof.
  intros Hperm Hd D same_name. apply dispatch_inv in Hd.
  assert (Hres : results
                 = fst (collect segmental_dtw
                          (as_completed
                             (submit_all queries query_names docs doc_names))))
    by now rewrite <- Hd.
  assert (HP : Permutation (dict_get key results)
                 (flat_map
                    (fun q => map (fun d => item_of segmental_dtw (task_of q d)) D)
                    same_name)).
  { rewrite Hres, collect_get.
    rewrite <- (Permutation_filter _ _ _ (Hperm _)).
    rewrite submit_all_prod, submitted_filter, map_of_flat_map.
    fold D same_name.
    erewrite flat_map_ext; [reflexivity|].
    intros q. now rewrite map_map. }
  split; [exact HP|].
  rewrite (Permutation_length HP). apply flat_map_rows_length.
Qed.

Lemma filter_map_length {A B : Type} (p : B -> bool) (g : A -> B) (l : list A) :
  List.length (filter p (map g l))
  = List.length (filter (fun x => p (g x)) l).
Proof.
  induction l as [|x l IH]; [reflexivity|].
  cbn [map filter]. destruct (p (g x)); cbn [List.length]; now rewrite IH.
Qed.

Lemma decision_yes_eqb (score_cut score_min : float) (item : string * float) :
  String.eqb (decision (term_of score_cut score_min item)) "YES"
  = ltb score_cut (snd item).
Proof.
  destruct item as [dn s]; cbn [term_of decision snd].
  now destruct (ltb score_cut s).
Qed.

(** X5: of the [N] terms of a report at most [N - 1 - floor(0.99 N)] have
    the decision YES; a report of at most 100 terms has none. *)
Theorem yes_decisions_are_few (W : Z) (n : nat) (rec : records feature)
    (tree : stdlist) :
  log_records segmental_dtw as_completed W n rec = Ok tree ->
  let N := List.length (report_entries tree) in
  let yes := filter (fun e => String.eqb (decision (snd e)) "YES")
                    (report_entries tree) in
  (List.length yes + 99 * N / 100 + 1 <= N)%nat /\
  ((N <= 100)%nat -> yes = []).
Proof.
  intros H N yes.
  destruct (report_entries_perm _ _ _ _ H) as (cut & mn & Ht & HP).
  set (order := as_completed _) in *.
  set (scores := map (future_score segmental_dtw) order) in *.
  apply determine_threshold_inv in Ht as (Hne & Hcut & _ & _).
  assert (HN : N = List.length scores).
  { subst N scores. now rewrite (Permutation_length HP), !length_map. }
  assert (Hyes : List.length yes = List.length (filter (ltb cut) (sorted scores))).
  { subst yes.
    rewrite (Permutation_length (Permutation_filter _ _ _ HP)).
    rewrite filter_map_length.
    rewrite <- (Permutation_length
                  (Permutation_filter (ltb cut) _ _ (sorted_perm scores))).
    subst scores. rewrite filter_map_length.
    f_equal. apply filter_ext. intros f. cbn [snd].
    apply decision_yes_eqb. }
  pose proof (ascending_count_above _ _ _ (sorted_ascending scores) Hcut) as Hb.
  rewrite sorted_length, <- Hyes, <- HN in Hb.
  split; [exact Hb|].
  intros Hsmall. apply length_zero_iff_nil.
  assert (1 <= N)%nat by (rewrite HN; destruct scores; [congruence|cbn; lia]).
  rewrite rank_99_of_small in Hb by lia. lia.
Qed.

(** X6: every report has a term with the score ["0.0000"] and the
    decision NO: the one of a pair with the least score. *)
Theorem weakest_match_is_zero_and_no (W : Z) (n : nat)
    (rec : records feature) (tree : stdlist) :
  log_records segmental_dtw as_completed W n rec = Ok tree ->
  exists tid t,
    In (tid, t) (report_entries tree) /\
    score t = "0.0000" /\ decision t = "NO".
Proof.
  intros H.
  destruct (report_entries_perm _ _ _ _ H) as (cut & mn & Ht & HP).
  set (order := as_completed _) in *.
  apply determine_threshold_inv in Ht as (_ & Hcut & Hmn & Hall).
  apply in_map_iff in Hmn as (f & Hf & Hin).
  exists (fut_query_name f), (term_of cut mn (item_of segmental_dtw f)).
  split; [|split].
  - eapply Permutation_in; [symmetry; exact HP|].
    apply (in_map (fun f => (fut_query_name f,
                             term_of cut mn (item_of segmental_dtw f)))).
    exact Hin.
  - cbn [item_of term_of score snd]. rewrite Hf. apply sub_diag.
  - apply decision_no. cbn [item_of snd]. rewrite Hf.
    rewrite Forall_forall in Hall. apply Hall.
    eapply Permutation_in; [symmetry; apply sorted_perm|].
    eapply nth_error_In; exact Hcut.
Qed.

(** X7: on records whose two lists have the same length [T], as
    [forward] leaves them, a report is built only if
    [1 <= n_queries < T], and it has [n_queries * (T - n_queries)]
    terms. *)
Theorem report_size_on_paired_records (W : Z) (n : nat)
    (rec : records feature) (tree : stdlist) :
  yields_each_once as_completed ->
  List.length (features rec) = List.length (audio_names rec) ->
  log_records segmental_dtw as_completed W n rec = Ok tree ->
  let T := List.length (features rec) in
  (1 <= n < T)%nat /\
  List.length (report_entries tree) = (n * (T - n))%nat.
Proof.
  intros Hperm Hlen H T.
  destruct (report_entries_perm _ _ _ _ H) as (cut & mn & Ht & HP).
  apply determine_threshold_inv in Ht as (Hne & _).
  assert (Hsize : List.length (report_entries tree)
                  = (Nat.min n T * (T - n))%nat).
  { rewrite (Permutation_length HP), length_map.
    rewrite <- (Permutation_length (Hperm _)), submit_all_prod.
    rewrite length_map, length_prod, !length_combine.
    rewrite !length_firstn, !length_skipn, <- Hlen. fold T. lia. }
  assert (Hpos : (1 <= List.length (report_entries tree))%nat).
  { rewrite (Permutation_length HP), length_map.
    rewrite <- (length_map (future_score segmental_dtw)).
    destruct (map _ _); [congruence|cbn; lia]. }
  assert (1 <= n < T)%nat by nia.
  split; [assumption|]. rewrite Hsize. f_equal. lia.
Qed.

(** X12: every term of a report stands for one (query, document) pair,
    and every pair has its term: the term is filed under the query's name
    without [".wav"], it is the one [build_term] makes of the document's
    name without [".wav"] and of the negated cost of that very pair, and
    where [".wav"] stands in the document's name as its extension only,
    or not at all, its [file] is the name without the extension. *)
Theorem term_is_built_from_its_pair (W : Z) (n : nat)
    (rec : records feature) (tree : stdlist) :
  yields_each_once as_completed ->
  log_records segmental_dtw as_completed W n rec = Ok tree ->
  let Q := combine (firstn n (features rec)) (firstn n (audio_names rec)) in
  let D := combine (skipn n (features rec)) (skipn n (audio_names rec)) in
  let strip := replace ".wav" EmptyString in
  exists score_cut score_min,
    Permutation
      (map (fun e => (fst e, Ok (snd e))) (report_entries tree))
      (map (fun p => (strip (snd (fst p)),
                      build_term score_cut score_min
                        (strip (snd (snd p)),
                         (- segmental_dtw (fst (fst p)) (fst (snd p)))%Qc)))
           (list_prod Q D)) /\
    forall tid t, In (tid, t) (report_entries tree) ->
      exists q d, In q Q /\ In d D /\
        tid = strip (snd q) /\
        build_term score_cut score_min
          (strip (snd d), (- segmental_dtw (fst q) (fst d))%Qc) = Ok t /\
        file t = strip (snd d) /\
        (contains ".wav" (removesuffix ".wav" (snd d)) = false ->
         file t = removesuffix ".wav" (snd d)).
Proof.
  intros Hperm H Q D strip.
  destruct (log_records_names _ _ _ _ _ _ H) as [_ Hnames].
  destruct (report_entries_perm _ _ _ _ H) as (cut & mn & _ & HP).
  set (order := as_completed _) in *.
  assert (Hsub : Permutation
                   (map (fun p => task_of (fst p) (snd p)) (list_prod Q D)) order).
  { subst order Q D. rewrite <- submit_all_prod. apply Hperm. }
  assert (Hbuild : forall q d, In (task_of q d) order ->
            build_term cut mn
              (strip (snd d), (- segmental_dtw (fst q) (fst d))%Qc)
            = Ok (term_of cut mn (item_of segmental_dtw (task_of q d)))).
  { intros q d Hf. rewrite build_term_eq. cbn [fst].
    replace (xml_compatible (strip (snd d))) with true
      by (symmetry; exact (proj2 (Hnames _ Hf))).
    unfold item_of. rewrite future_score_eq. reflexivity. }
  exists cut, mn. split.
  - eapply perm_trans; [apply Permutation_map, HP|].
    eapply perm_trans;
      [apply Permutation_map, Permutation_map, Permutation_sym, Hsub|].
    rewrite !map_map. cbn [fst snd].
    erewrite map_ext_in; [reflexivity|].
    intros [q d] Hp. cbn [fst snd task_of fut_query_name]. f_equal.
    symmetry. apply Hbuild.
    eapply Permutation_in; [exact Hsub|].
    apply (in_map (fun p => task_of (fst p) (snd p)) _ (q, d)), Hp.
  - intros tid t Hin.
    eapply Permutation_in in Hin; [|exact HP].
    apply in_map_iff in Hin as (f & Hf & Hin). injection Hf as <- <-.
    pose proof Hin as Hin'.
    eapply Permutation_in in Hin'; [|symmetry; exact Hsub].
    apply in_map_iff in Hin' as ([q d] & <- & Hp). cbn [fst snd] in *.
    apply in_prod_iff in Hp as [Hq Hd].
    exists q, d. split; [exact Hq|]. split; [exact Hd|].
    split; [reflexivity|]. split; [now apply Hbuild|].
    split; [reflexivity|].
    intros Hplain. cbn [term_of item_of file fst task_of fut_doc_name].
    now apply replace_wav_removesuffix.
Qed.

End LogRecords.

(** ** The order of the [detected_termlist] elements *)

Lemma dict_keys_append_order (k : string) (v : string * float) (d : results_dict) :
  dict_keys (dict_append k v d)
  = if in_dec string_dec k (dict_keys d)
    then dict_keys d else dict_keys d ++ [k].
Proof.
  induction d as [|[k0 items] d IH]; [reflexivity|].
  cbn [dict_append]. destruct (String.eqb_spec k0 k) as [->|Hne].
  - cbn [dict_keys map fst].
    destruct (in_dec string_dec k (k :: map fst d)) as [|Hn]; [reflexivity|].
    exfalso. apply Hn. now left.
  - change (dict_keys ((k0, items) :: dict_append k v d))
      with (k0 :: dict_keys (dict_append k v d)).
    change (dict_keys ((k0, items) :: d)) with (k0 :: dict_keys d).
    rewrite IH.
    destruct (in_dec string_dec k (dict_keys d)) as [Hin|Hn],
             (in_dec string_dec k (k0 :: dict_keys d)) as [Hin'|Hn'];
      try reflexivity.
    + exfalso. apply Hn'. now right.
    + destruct Hin' as [E|Hin']; [congruence|contradiction].
Qed.

Lemma first_seen_snoc (names : list string) (k : string) :
  rev (nodup string_dec (rev (names ++ [k])))
  = if in_dec string_dec k (rev (nodup string_dec (rev names)))
    then rev (nodup string_dec (rev names))
    else rev (nodup string_dec (rev names)) ++ [k].
Proof.
  rewrite rev_app_distr. cbn [rev app nodup].
  destruct (in_dec string_dec k (rev names)) as [Hin|Hn],
           (in_dec string_dec k (rev (nodup string_dec (rev names))))
             as [Hin'|Hn']; try reflexivity.
  - exfalso. apply Hn'. apply -> in_rev. now apply nodup_In.
  - exfalso. apply Hn. apply in_rev in Hin'. now apply nodup_In in Hin'.
Qed.

Section TermlistOrder.

Context {feature : Type}.
Variable segmental_dtw : feature -> feature -> float.
Variable as_completed : list (future feature) -> list (future feature).

Lemma collect_keys_order (order : list (future feature)) :
  dict_keys (fst (collect segmental_dtw order))
  = rev (nodup string_dec (rev (map fut_query_name order))).
Proof.
  induction order as [|f order IH] using rev_ind; [reflexivity|].
  unfold collect in *. rewrite fold_left_app. cbn [fold_left].
  destruct (fold_left _ order _) as [d sc] eqn:E. cbn [fst] in IH.
  cbn [collect_step]. rewrite future_result_eq. cbn [fst].
  rewrite dict_keys_append_order, IH, map_app. cbn [map].
  now rewrite first_seen_snoc.
Qed.

(** X10: the [detected_termlist] elements of a report stand in the order
    in which the first result of each query name arrived: their [termid]s
    are the query names of the futures in completion order, each kept
    where it first occurs. *)
Theorem termlists_in_order_of_first_arrival (W : Z) (n : nat)
    (rec : records feature) (tree : stdlist) :
  log_records segmental_dtw as_completed W n rec = Ok tree ->
  let order :=
    as_completed
      (submit_all (firstn n (features rec)) (firstn n (audio_names rec))
                  (skipn n (features rec)) (skipn n (audio_names rec))) in
  map termid (termlists tree)
  = rev (nodup string_dec (rev (map fut_query_name order))).
Proof.
  intros H order.
  destruct (log_records_inv _ _ _ _ _ _ H) as (cut & mn & _ & ->).
  fold order. cbn [tree_of termlists]. rewrite map_map.
  rewrite <- collect_keys_order. unfold dict_keys.
  apply map_ext. now intros [k items].
Qed.

End TermlistOrder.

(** ** The sample run, again *)

Lemma forward_appends_the_zipped_batch_witness :
  let rec' :=
    fst (forward (fun z : Z => z) sample_batch (audio_names sample_records)
                 no_records) in
  features rec' = features no_records ++ map (fun z : Z => z) (firstn 4 sample_batch) /\
  audio_names rec'
  = audio_names no_records ++ firstn 4 (audio_names sample_records) /\
  (List.length (features no_records) = List.length (audio_names no_records) ->
   List.length (features rec') = List.length (audio_names rec')) /\
  snd (forward (fun z : Z => z) sample_batch (audio_names sample_records)
               no_records)
  = [float_of_Z 0].
Proof.
  exact (forward_appends_the_zipped_batch (fun z : Z => z) sample_batch
           (audio_names sample_records) no_records).
Defined.

Lemma log_records_outcome_witness :
  yields_each_once last_first /\
  let Q := combine (firstn 1 (features sample_records))
                   (firstn 1 (audio_names sample_records)) in
  let D := combine (skipn 1 (features sample_records))
                   (skipn 1 (audio_names sample_records)) in
  ((4 <= 0)%Z ->
   log_records sample_dtw last_first 4 1 sample_records = Raise ValueError) /\
  ((1 <= 4)%Z -> Q = [] \/ D = [] ->
   log_records sample_dtw last_first 4 1 sample_records = Raise IndexError) /\
  (forall tree,
     log_records sample_dtw last_first 4 1 sample_records = Ok tree ->
     (1 <= 4)%Z /\ Q <> [] /\ D <> [] /\
     (forall q, In q Q ->
        xml_compatible (replace ".wav" EmptyString (snd q)) = true) /\
     (forall d, In d D ->
        xml_compatible (replace ".wav" EmptyString (snd d)) = true)).
Proof.
  split; [exact last_first_once|].
  apply (log_records_outcome sample_dtw last_first 4 1 sample_records).
  exact last_first_once.
Defined.

Lemma termlists_are_distinct_and_filled_witness :
  log_records sample_dtw last_first 4 1 sample_records = Ok sample_tree /\
  NoDup (map termid (termlists sample_tree)) /\
  Forall (fun tl => terms tl <> []) (termlists sample_tree).
Proof.
  split; [vm_compute; reflexivity|].
  apply (termlists_are_distinct_and_filled sample_dtw last_first 4 1
           sample_records sample_tree).
  vm_compute; reflexivity.
Defined.

Lemma group_holds_every_document_witness :
  let order :=
    last_first
      (submit_all twin_queries twin_query_names twin_docs twin_doc_names) in
  let results := fst (collect sample_dtw order) in
  let scores := snd (collect sample_dtw order) in
  let D := combine twin_docs twin_doc_names in
  let same_name :=
    filter (fun q => String.eqb (replace ".wav" EmptyString (snd q)) "a")
           (combine twin_queries twin_query_names) in
  yields_each_once last_first /\
  dispatch sample_dtw last_first 4
    twin_queries twin_query_names twin_docs twin_doc_names
  = Ok (results, scores) /\
  Permutation (dict_get "a" results)
    (flat_map (fun q => map (fun d => item_of sample_dtw (task_of q d)) D)
              same_name) /\
  List.length (dict_get "a" results)
  = (List.length same_name * List.length D)%nat.
Proof.
  intros order results scores D same_name.
  split; [exact last_first_once|]. split; [reflexivity|].
  apply (group_holds_every_document sample_dtw last_first 4
           twin_queries twin_query_names twin_docs twin_doc_names
           results scores "a").
  - exact last_first_once.
  - reflexivity.
Defined.

Lemma yes_decisions_are_few_witness :
  log_records sample_dtw last_first 4 1 sample_records = Ok sample_tree /\
  let N := List.length (report_entries sample_tree) in
  let yes := filter (fun e => String.eqb (decision (snd e)) "YES")
                    (report_entries sample_tree) in
  (List.length yes + 99 * N / 100 + 1 <= N)%nat /\
  ((N <= 100)%nat -> yes = []).
Proof.
  split; [vm_compute; reflexivity|].
  apply (yes_decisions_are_few sample_dtw last_first 4 1
           sample_records sample_tree).
  vm_compute; reflexivity.
Defined.

Lemma weakest_match_is_zero_and_no_witness :
  log_records sample_dtw last_first 4 1 sample_records = Ok sample_tree /\
  exists tid t,
    In (tid, t) (report_entries sample_tree) /\
    score t = "0.0000" /\ decision t = "NO".
Proof.
  split; [vm_compute; reflexivity|].
  apply (weakest_match_is_zero_and_no sample_dtw last_first 4 1
           sample_records sample_tree).
  vm_compute; reflexivity.
Defined.

Lemma report_size_on_paired_records_witness :
  yields_each_once last_first /\
  List.length (features sample_records)
  = List.length (audio_names sample_records) /\
  log_records sample_dtw last_first 4 1 sample_records = Ok sample_tree /\
  (1 <= 1 < 4)%nat /\
  List.length (report_entries sample_tree) = (1 * (4 - 1))%nat.
Proof.
  split; [exact last_first_once|]. split; [reflexivity|].
  split; [vm_compute; reflexivity|].
  apply (report_size_on_paired_records sample_dtw last_first 4 1
           sample_records sample_tree).
  - exact last_first_once.
  - reflexivity.
  - vm_compute; reflexivity.
Defined.

Lemma format_4f_keeps_order_witness :
  (0 <= Q2Qc (65535 # 32768))%Qc /\
  (Q2Qc (65535 # 32768) <= Q2Qc 2)%Qc /\
  let a := round_half_even (Q2Qc (65535 # 32768) * float_of_Z 10000)%Qc in
  let b := round_half_even (Q2Qc 2 * float_of_Z 10000)%Qc in
  format_4f (Q2Qc (65535 # 32768)) = fixed4 a /\
  format_4f (Q2Qc 2) = fixed4 b /\ (0 <= a <= b)%Z.
Proof.
  split; [vm_compute; discriminate|]. split; [vm_compute; discriminate|].
  apply (format_4f_keeps_order (Q2Qc (65535 # 32768)) (Q2Qc 2));
    vm_compute; discriminate.
Defined.

Lemma format_4f_same_text_witness :
  (0 <= Q2Qc (65535 # 32768))%Qc /\ (0 <= Q2Qc 2)%Qc /\
  (format_4f (Q2Qc (65535 # 32768)) = format_4f (Q2Qc 2)
   <-> round_half_even (Q2Qc (65535 # 32768) * float_of_Z 10000)%Qc
       = round_half_even (Q2Qc 2 * float_of_Z 10000)%Qc).
Proof.
  split; [vm_compute; discriminate|]. split; [vm_compute; discriminate|].
  apply (format_4f_same_text (Q2Qc (65535 # 32768)) (Q2Qc 2));
    vm_compute; discriminate.
Defined.

Lemma termlists_in_order_of_first_arrival_witness :
  log_records sample_dtw last_first 4 1 sample_records = Ok sample_tree /\
  map termid (termlists sample_tree)
  = rev (nodup string_dec
           (rev (map fut_query_name
                   (last_first
                      (submit_all (firstn 1 (features sample_records))
                                  (firstn 1 (audio_names sample_records))
                                  (skipn 1 (features sample_records))
                                  (skipn 1 (audio_names sample_records))))))).
Proof.
  split; [vm_compute; reflexivity|].
  apply (termlists_in_order_of_first_arrival sample_dtw last_first 4 1
           sample_records sample_tree).
  vm_compute; reflexivity.
Defined.

Lemma sub_is_SFsub_witness :
  let x := S754_finite true (2 ^ 52) (-122) in
  let y := S754_finite true (3 * 2 ^ 51) (-56) in
  valid_binary 53 1024 x = true /\ valid_binary 53 1024 y = true /\
  Binary64.finite x = true /\ Binary64.finite y = true /\
  Binary64.of_spec (SFsub 53 1024 x y)
  = Some (Binary64.sub (Binary64.value x) (Binary64.value y)).
Proof.
  intros x y. split; [reflexivity|]. split; [reflexivity|].
  split; [reflexivity|]. split; [reflexivity|].
  apply (sub_is_SFsub x y); reflexivity.
Defined.

Lemma term_is_built_from_its_pair_witness :
  yields_each_once last_first /\
  log_records sample_dtw last_first 4 1 sample_records = Ok sample_tree /\
  let Q := combine (firstn 1 (features sample_records))
                   (firstn 1 (audio_names sample_records)) in
  let D := combine (skipn 1 (features sample_records))
                   (skipn 1 (audio_names sample_records)) in
  let strip := replace ".wav" EmptyString in
  exists score_cut score_min,
    Permutation
      (map (fun e => (fst e, Ok (snd e))) (report_entries sample_tree))
      (map (fun p => (strip (snd (fst p)),
                      build_term score_cut score_min
                        (strip (snd (snd p)),
                         (- sample_dtw (fst (fst p)) (fst (snd p)))%Qc)))
           (list_prod Q D)) /\
    forall tid t, In (tid, t) (report_entries sample_tree) ->
      exists q d, In q Q /\ In d D /\
        tid = strip (snd q) /\
        build_term score_cut score_min
          (strip (snd d), (- sample_dtw (fst q) (fst d))%Qc) = Ok t /\
        file t = strip (snd d) /\
        (contains ".wav" (removesuffix ".wav" (snd d)) = false ->
         file t = removesuffix ".wav" (snd d)).
Proof.
  split; [exact last_first_once|]. split; [vm_compute; reflexivity|].
  apply (term_is_built_from_its_pair sample_dtw last_first 4 1
           sample_records sample_tree).
  - exact last_first_once.
  - vm_compute; reflexivity.
Defined.
